(** * Clementine: [core/utilities.cpp] and [core/closure.cpp]

    A shallow embedding of the helper functions of Clementine's
    [Utilities] namespace (time formatting, file-system queries, recursive
    removal, stream copy) and of the timer helpers of [closure.cpp],
    together with the properties the specification states about them.

    Conventions.
    - A C++ [int] is a [Z] in the range [INT_MIN .. INT_MAX]; arithmetic
      that can leave the range is wrapped with [to_int].  [qint64] and
      [quint64] values are [Z] as well; [to_quint64] wraps where the source
      multiplies unsigned 64-bit values.
    - Qt objects the functions talk to ([QIODevice], the directory tree
      behind [QDir]/[QFile], the operating system's volume queries, the
      timer queue) are explicit states that the functions transform. *)

From Stdlib Require Import ZArith Lia Ascii Strings.Byte.
From stdpp Require Import gmap strings list fin_maps pretty.

Open Scope Z_scope.

(* stdpp's solvers clear hypotheses by name and warn when one is gone. *)
Set Warnings "-clear-no-such-hyp".

(** ** Machine integers *)

Definition INT_MIN : Z := - 2 ^ 31.
Definition INT_MAX : Z := 2 ^ 31 - 1.

(** [is_int z]: [z] is a value of the C++ type [int]. *)
Definition is_int (z : Z) : Prop := INT_MIN <= z <= INT_MAX.

(** Conversion to [int] (two's complement wrap-around). *)
Definition to_int (z : Z) : Z := (z + 2 ^ 31) mod 2 ^ 32 - 2 ^ 31.

(** Conversion to [quint64]. *)
Definition to_quint64 (z : Z) : Z := z mod 2 ^ 64.

(** [qAbs] of <QtGlobal>: [t >= 0 ? t : -t], on [int]. *)
Definition qAbs (t : Z) : Z := if 0 <=? t then t else to_int (- t).

(** ** [QString::sprintf] for the two formats [PrettyTime] uses *)

(** ["%d"]. *)
Definition fmt_d (v : Z) : string := pretty v.

(** ["%02d"]: at least two characters, padded with zeros on the left.  A
    negative number already has two characters (the sign and a digit). *)
Definition fmt_02d (v : Z) : string :=
  if (0 <=? v) && (v <? 10) then "0" +:+ pretty v else pretty v.

(** ** [QString::arg]

    A place marker is a percent sign followed by one or two decimal digits.
    [arg] replaces every occurrence of the marker with the lowest number;
    a string without a marker is returned as it is.  (Markers with the
    locale flag, [%L1], are not modelled: no format string of the source
    has one.) *)

Definition percent : ascii := Ascii.ascii_of_nat 37.

(** [QChar::digitValue], for the ASCII digits. *)
Definition digitValue (c : ascii) : option nat :=
  let n := Ascii.nat_of_ascii c in
  if (48 <=? n)%nat && (n <=? 57)%nat then Some (n - 48)%nat else None.

(** A string cut into its characters and its place markers; a marker
    keeps its text. *)
Inductive Piece :=
  | Text (c : ascii)
  | Marker (number : nat) (raw : string).

Fixpoint pieces (s : string) : list Piece :=
  match s with
  | EmptyString => []
  | String c rest =>
      if Ascii.eqb c percent then
        match rest with
        | EmptyString => [Text c]
        | String d1 rest1 =>
            match digitValue d1 with
            | None => Text c :: pieces rest
            | Some v1 =>
                match rest1 with
                | EmptyString => [Marker v1 (String c (String d1 EmptyString))]
                | String d2 rest2 =>
                    match digitValue d2 with
                    | None =>
                        Marker v1 (String c (String d1 EmptyString))
                          :: pieces rest1
                    | Some v2 =>
                        Marker (10 * v1 + v2)
                               (String c (String d1 (String d2 EmptyString)))
                          :: pieces rest2
                    end
                end
            end
        end
      else Text c :: pieces rest
  end.

(** The numbers of the markers, in the order they occur. *)
Definition marker_numbers (ps : list Piece) : list nat :=
  omap (λ p, match p with Marker n _ => Some n | Text _ => None end) ps.

(** The lowest marker number. *)
Definition lowest (ns : list nat) : option nat :=
  match ns with
  | [] => None
  | n :: ns' => Some (foldr Nat.min n ns')
  end.

(** The text with the markers that [value] knows replaced. *)
Fixpoint substitute (value : nat → option string) (ps : list Piece) : string :=
  match ps with
  | [] => EmptyString
  | Text c :: ps' => String c (substitute value ps')
  | Marker n raw :: ps' =>
      match value n with
      | Some a => a +:+ substitute value ps'
      | None => raw +:+ substitute value ps'
      end
  end.

(** [s.arg(a)]. *)
Definition arg (s a : string) : string :=
  match lowest (marker_numbers (pieces s)) with
  | None => s
  | Some m =>
      substitute (λ n, if decide (n = m) then Some a else None) (pieces s)
  end.

(** [s.arg(a1, a2)]: the two lowest marker numbers are replaced in one
    pass, so that a marker inside [a1] is not replaced by [a2]. *)
Definition arg2 (s a1 a2 : string) : string :=
  let ns := marker_numbers (pieces s) in
  match lowest ns with
  | None => s
  | Some m1 =>
      match lowest (List.filter (λ n, negb (n =? m1)%nat) ns) with
      | None =>
          substitute (λ n, if decide (n = m1) then Some a1 else None) (pieces s)
      | Some m2 =>
          substitute (λ n, if decide (n = m1) then Some a1
                           else if decide (n = m2) then Some a2 else None)
                     (pieces s)
      end
  end.

(** [QStringList::join]. *)
Fixpoint join (sep : string) (parts : list string) : string :=
  match parts with
  | [] => EmptyString
  | [part] => part
  | part :: rest => part +:+ sep +:+ join sep rest
  end.

Module Utilities.

(** [QString PrettyTime(int seconds)]. *)
Definition PrettyTime (seconds : Z) : string :=
  let seconds := qAbs seconds in
  let hours := seconds ÷ (60 * 60) in
  let minutes := Z.rem (seconds ÷ 60) 60 in
  let seconds := Z.rem seconds 60 in
  if negb (hours =? 0)
  then fmt_d hours +:+ ":" +:+ fmt_02d minutes +:+ ":" +:+ fmt_02d seconds
  else fmt_d minutes +:+ ":" +:+ fmt_02d seconds.

(** [QString WordyTime(quint64 seconds)].  [tr] is
    [QCoreApplication::translate] with the translations the application
    has installed; without any it returns its argument. *)
Definition WordyTime (tr : string → string) (seconds : Z) : string :=
  let days := seconds ÷ (60 * 60 * 24) in
  let parts :=
    (if negb (days =? 0)
     then [if days =? 1 then tr "1 day" else arg (tr "%1 days") (pretty days)]
     else [])
    ++ [PrettyTime
          (to_int (to_quint64 (seconds - to_quint64 (days * 60 * 60 * 24))))] in
  join " " parts.

(** [QString PrettySize(quint64 bytes)].  The source divides in [float] and
    prints with ["%.1f"]; [float_1f bytes divisor] stands for the text that
    prints for [float(bytes) / divisor], which is not computed here. *)
Definition PrettySize (float_1f : Z → Z → string) (bytes : Z) : string :=
  if 0 <? bytes then
    if bytes <=? 1000 then pretty bytes +:+ " bytes"
    else if bytes <=? 1000 * 1000 then float_1f bytes 1000 +:+ " KB"
    else if bytes <=? 1000 * 1000 * 1000 then
      float_1f bytes (1000 * 1000) +:+ " MB"
    else float_1f bytes (1000 * 1000 * 1000) +:+ " GB"
  else EmptyString.

(** *** Volume queries *)

(** The target the file is compiled for ([Q_OS_UNIX], [Q_OS_WIN32], or
    neither). *)
Inductive Platform := Q_OS_UNIX | Q_OS_WIN32 | Q_OS_OTHER.

(** The fields of [struct statvfs] the source reads. *)
Record statvfs_t := {
  f_bsize : Z;
  f_blocks : Z;
  f_bavail : Z;
}.

(** The three out-parameters of [GetDiskFreeSpaceEx]. *)
Record disk_space_t := {
  FreeBytesAvailable : Z;
  TotalNumberOfBytes : Z;
  TotalNumberOfFreeBytes : Z;
}.

(** The operating system as the two functions see it.  [statvfs] answers
    [None] when the call returns a non-zero value (failure), and
    [GetDiskFreeSpaceEx] answers [None] when the call returns zero
    (failure). *)
Record OS := {
  platform : Platform;
  statvfs : string → option statvfs_t;
  GetDiskFreeSpaceEx : string → option disk_space_t;
}.

Definition slash : ascii := Ascii.ascii_of_nat 47.
Definition backslash : ascii := Ascii.ascii_of_nat 92.

(** [QDir::toNativeSeparators] on Windows: every slash becomes a
    backslash. *)
Fixpoint toNativeSeparators (path : string) : string :=
  match path with
  | EmptyString => EmptyString
  | String c rest =>
      String (if Ascii.eqb c slash then backslash else c)
             (toNativeSeparators rest)
  end.

(** [quint64 FileSystemCapacity(const QString& path)].  The conversion
    [path.toLocal8Bit().constData()] hands the same path to the system
    call, so the path is passed on as it is. *)
Definition FileSystemCapacity (os : OS) (path : string) : Z :=
  match platform os with
  | Q_OS_UNIX =>
      match statvfs os path with
      | Some fs_info =>
          to_quint64 (to_quint64 (f_blocks fs_info) * to_quint64 (f_bsize fs_info))
      | None => 0
      end
  | Q_OS_WIN32 =>
      match GetDiskFreeSpaceEx os (toNativeSeparators path) with
      | Some ret => TotalNumberOfBytes ret
      | None => 0
      end
  | Q_OS_OTHER => 0
  end.

(** [quint64 FileSystemFreeSpace(const QString& path)]. *)
Definition FileSystemFreeSpace (os : OS) (path : string) : Z :=
  match platform os with
  | Q_OS_UNIX =>
      match statvfs os path with
      | Some fs_info =>
          to_quint64 (to_quint64 (f_bavail fs_info) * to_quint64 (f_bsize fs_info))
      | None => 0
      end
  | Q_OS_WIN32 =>
      match GetDiskFreeSpaceEx os (toNativeSeparators path) with
      | Some ret => FreeBytesAvailable ret
      | None => 0
      end
  | Q_OS_OTHER => 0
  end.

(** The query the functions issue for [path] failed.  On a platform that is
    neither Unix nor Windows there is no query to issue. *)
Definition os_query_fails (os : OS) (path : string) : Prop :=
  match platform os with
  | Q_OS_UNIX => statvfs os path = None
  | Q_OS_WIN32 => GetDiskFreeSpaceEx os (toNativeSeparators path) = None
  | Q_OS_OTHER => True
  end.

(** *** Byte streams: [QIODevice]

    [Copy] receives two devices by pointer and calls [open], [size], [read]
    and [write] on them.  A device is modelled by its state: whether
    [open] will succeed, the mode it is open in, its contents, the
    position of the next read, and a script [replies] that says how the
    device answers the successive transfers: with the error value [-1]
    ([Fail]), or by transferring at most [n] bytes ([Grant n]); a device
    whose script is used up transfers all it is asked for.  [Grant 0]
    is a transfer that obtains nothing although bytes are missing, as when
    a file was cut short after its size was taken.  [size()] is the length
    of the contents.  [calls] records every call made on the device. *)

Inductive OpenMode := NotOpen | ReadOnly | WriteOnly.

Inductive Reply := Fail | Grant (n : nat).

Inductive Call :=
  | CallOpen (mode : OpenMode) (ok : bool)
  | CallSize (ret : Z)
  | CallRead (maxSize : Z) (ret : Z)
  | CallWrite (offered : list byte) (ret : Z).

Record QIODevice := {
  openable : bool;
  openMode : OpenMode;
  contents : list byte;
  position : nat;
  replies : list Reply;
  calls : list Call;
}.

Definition isReadable (d : QIODevice) : bool :=
  match openMode d with ReadOnly => true | _ => false end.

Definition isWritable (d : QIODevice) : bool :=
  match openMode d with WriteOnly => true | _ => false end.

Definition isOpen (d : QIODevice) : bool :=
  match openMode d with NotOpen => false | _ => true end.

Definition logged (c : Call) (d : QIODevice) : QIODevice :=
  {| openable := openable d; openMode := openMode d; contents := contents d;
     position := position d; replies := replies d; calls := calls d ++ [c] |}.

(** [QIODevice::open(mode)].  Opening for writing only truncates the
    device ([QIODevice::WriteOnly] implies [Truncate] for files). *)
Definition open (mode : OpenMode) (d : QIODevice) : bool * QIODevice :=
  if openable d then
    (true,
     {| openable := openable d; openMode := mode;
        contents := match mode with WriteOnly => [] | _ => contents d end;
        position := 0%nat; replies := replies d;
        calls := calls d ++ [CallOpen mode true] |})
  else (false, logged (CallOpen mode false) d).

(** [QIODevice::size()]. *)
Definition size (d : QIODevice) : Z * QIODevice :=
  let n := Z.of_nat (length (contents d)) in (n, logged (CallSize n) d).

(** The bytes a device hands out when asked for [maxSize] bytes and its
    reply allows [allowance] of them. *)
Definition chunk_of (d : QIODevice) (allowance : nat) : list byte :=
  take allowance (drop (position d) (contents d)).

(** [QIODevice::read(data, maxSize)]: the return value, the bytes stored at
    [data], and the device afterwards.  A device that is not open for
    reading answers [-1].  A request for no bytes is answered with [0]
    and does not reach the device's script: [QIODevice::read] returns
    before it asks the device for data when [maxSize] is zero. *)
Definition read (maxSize : Z) (d : QIODevice) : Z * list byte * QIODevice :=
  if negb (isReadable d) || (maxSize <? 0) then
    (-1, [], logged (CallRead maxSize (-1)) d)
  else if maxSize =? 0 then (0, [], logged (CallRead maxSize 0) d)
  else
    match replies d with
    | Fail :: rest =>
        (-1, [],
         {| openable := openable d; openMode := openMode d;
            contents := contents d; position := position d; replies := rest;
            calls := calls d ++ [CallRead maxSize (-1)] |})
    | Grant n :: rest =>
        let chunk := chunk_of d (Nat.min n (Z.to_nat maxSize)) in
        let ret := Z.of_nat (length chunk) in
        (ret, chunk,
         {| openable := openable d; openMode := openMode d;
            contents := contents d;
            position := (position d + length chunk)%nat; replies := rest;
            calls := calls d ++ [CallRead maxSize ret] |})
    | [] =>
        let chunk := chunk_of d (Z.to_nat maxSize) in
        let ret := Z.of_nat (length chunk) in
        (ret, chunk,
         {| openable := openable d; openMode := openMode d;
            contents := contents d;
            position := (position d + length chunk)%nat; replies := [];
            calls := calls d ++ [CallRead maxSize ret] |})
    end.

(** [QIODevice::write(data, maxSize)], where [offered] are the [maxSize]
    bytes at [data]: the return value and the device afterwards.  A device
    that is not open for writing answers [-1]; an offer of no bytes writes
    nothing and is answered with [0].  The device was truncated when it was
    opened, so accepted bytes go to its end. *)
Definition write (offered : list byte) (d : QIODevice) : Z * QIODevice :=
  if negb (isWritable d) then (-1, logged (CallWrite offered (-1)) d)
  else
    match offered with
    | [] => (0, logged (CallWrite offered 0) d)
    | _ :: _ =>
        match replies d with
        | Fail :: rest =>
            (-1,
             {| openable := openable d; openMode := openMode d;
                contents := contents d; position := position d;
                replies := rest;
                calls := calls d ++ [CallWrite offered (-1)] |})
        | Grant n :: rest =>
            let accepted := take n offered in
            let ret := Z.of_nat (length accepted) in
            (ret,
             {| openable := openable d; openMode := openMode d;
                contents := contents d ++ accepted;
                position := (position d + length accepted)%nat;
                replies := rest;
                calls := calls d ++ [CallWrite offered ret] |})
        | [] =>
            let ret := Z.of_nat (length offered) in
            (ret,
             {| openable := openable d; openMode := openMode d;
                contents := contents d ++ offered;
                position := (position d + length offered)%nat;
                replies := [];
                calls := calls d ++ [CallWrite offered ret] |})
        end
    end.

(** *** The state [Copy] runs in, and its control flow *)

(** The two devices [Copy]'s pointers refer to (two distinct objects). *)
Record World := {
  source : QIODevice;
  destination : QIODevice;
}.

(** How a piece of [Copy] ends: it goes on with a value, the function
    returns [ret], or the fuel of a loop ran out. *)
Inductive Flow (A : Type) :=
  | Next (a : A)
  | Return (ret : bool)
  | OutOfFuel.
Arguments Next {A} a.
Arguments Return {A} ret.
Arguments OutOfFuel {A}.

Definition Exec (A : Type) : Type := World → Flow A * World.

Definition pure {A} (a : A) : Exec A := λ w, (Next a, w).
Definition return_ {A} (ret : bool) : Exec A := λ w, (Return ret, w).
Definition out_of_fuel {A} : Exec A := λ w, (OutOfFuel, w).

Definition bind {A B} (m : Exec A) (k : A → Exec B) : Exec B :=
  λ w, match m w with
       | (Next a, w') => k a w'
       | (Return ret, w') => (Return ret, w')
       | (OutOfFuel, w') => (OutOfFuel, w')
       end.

Notation "'call' x := m 'in' k" := (bind m (λ x, k))
  (at level 10, x pattern, m at level 100, k at level 200).

Definition source_open (mode : OpenMode) : Exec bool :=
  λ w, let '(ok, d) := open mode (source w) in
       (Next ok, {| source := d; destination := destination w |}).

Definition destination_open (mode : OpenMode) : Exec bool :=
  λ w, let '(ok, d) := open mode (destination w) in
       (Next ok, {| source := source w; destination := d |}).

Definition source_size : Exec Z :=
  λ w, let '(n, d) := size (source w) in
       (Next n, {| source := d; destination := destination w |}).

Definition source_read (maxSize : Z) : Exec (Z * list byte) :=
  λ w, let '(ret, chunk, d) := read maxSize (source w) in
       (Next (ret, chunk), {| source := d; destination := destination w |}).

Definition destination_write (offered : list byte) : Exec Z :=
  λ w, let '(ret, d) := write offered (destination w) in
       (Next ret, {| source := source w; destination := d |}).

(** *** The buffer *)

(** [store data pos chunk]: [data] after [chunk] was written at offset
    [pos] (what [read(data.get() + pos, ...)] does to the array). *)
Definition store (data : list byte) (pos : Z) (chunk : list byte) : list byte :=
  take (Z.to_nat pos) data ++ chunk
    ++ drop (Z.to_nat pos + length chunk) data.

(** [region data pos len]: the [len] bytes at [data.get() + pos]. *)
Definition region (data : list byte) (pos len : Z) : list byte :=
  take (Z.to_nat len) (drop (Z.to_nat pos) data).

Section Copy.

(** [new char[bytes]] does not initialise the array: [uninit i] is
    whatever byte the fresh array holds at offset [i]. *)
Variable uninit : nat → byte.

Definition new_char (bytes : Z) : list byte :=
  uninit <$> seq 0 (Z.to_nat bytes).

(** The first [do ... while] loop of [Copy]; one unit of fuel per
    iteration. *)
Fixpoint read_loop (fuel : nat) (bytes : Z) (data : list byte) (pos : Z)
  : Exec (list byte) :=
  match fuel with
  | O => out_of_fuel
  | S fuel' =>
      call answer := source_read (bytes - pos) in
      let bytes_read := answer.1 in
      if bytes_read =? -1 then return_ false
      else
        let data := store data pos answer.2 in
        let pos := pos + bytes_read in
        if (0 <? bytes_read) && negb (pos =? bytes)
        then read_loop fuel' bytes data pos
        else pure data
  end.

(** The second [do ... while] loop. *)
Fixpoint write_loop (fuel : nat) (bytes : Z) (data : list byte) (pos : Z)
  : Exec unit :=
  match fuel with
  | O => out_of_fuel
  | S fuel' =>
      call bytes_written := destination_write (region data pos (bytes - pos)) in
      if bytes_written =? -1 then return_ false
      else
        let pos := pos + bytes_written in
        if (0 <? bytes_written) && negb (pos =? bytes)
        then write_loop fuel' bytes data pos
        else pure tt
  end.

(** [bool Copy(QIODevice* source, QIODevice* destination)]. *)
Definition Copy (fuel : nat) : Exec unit :=
  call ok := source_open ReadOnly in
  if negb ok then return_ false
  else
    call ok := destination_open WriteOnly in
    if negb ok then return_ false
    else
      call bytes := source_size in
      let data := new_char bytes in
      call data := read_loop fuel bytes data 0 in
      call _ := write_loop fuel bytes data 0 in
      return_ true.

End Copy.

(** *** The directory tree behind [QDir] and [QFile]

    A path is absolute and is the list of its components, so that
    [path + "/" + child] is [path ++ [child]].  The tree maps every
    existing path to what is there, a regular file or a directory (links
    and special files are left out); the entries [.] and [..] are not part
    of the map (the source excludes them with [QDir::NoDotAndDotDot]).
    Every operation succeeds when the tree allows it: there are no
    permissions that could refuse it. *)

Inductive Kind := File | Dir.

Global Instance Kind_eq_dec : EqDecision Kind.
Proof. solve_decision. Defined.

Abbreviation Path := (list string).

Inductive Op := OpRemove | OpRmdir.

(** One call of [QFile::remove] or [QDir::rmdir]: the path it was given,
    the tree it ran on, and whether it succeeded. *)
Record Step := {
  op : Op;
  target : Path;
  before : gmap Path Kind;
  ok : bool;
}.

(** The tree together with the calls made so far, oldest first. *)
Record Disk := {
  tree : gmap Path Kind;
  journal : list Step;
}.

(** The last component of a path and what precedes it. *)
Definition split_last (p : Path) : option (Path * string) :=
  match reverse p with
  | [] => None
  | name :: parent => Some (reverse parent, name)
  end.

(** [child_of dir p]: the name under which [p] is a direct entry of
    [dir]. *)
Definition child_of (dir p : Path) : option string :=
  match split_last p with
  | Some (parent, name) => if decide (parent = dir) then Some name else None
  | None => None
  end.

(** All direct entries of [dir], hidden ones included. *)
Definition children (t : gmap Path Kind) (dir : Path) : list (string * Kind) :=
  omap (λ e, match child_of dir e.1 with
             | Some name => Some (name, e.2)
             | None => None
             end) (map_to_list t).

(** A hidden entry: on Unix, one whose name starts with a dot. *)
Definition isHidden (name : string) : bool :=
  match name with
  | String c _ => Ascii.eqb c (Ascii.ascii_of_nat 46)
  | EmptyString => false
  end.

(** [QDir(dir).entryList(QDir::NoDotAndDotDot | filter)] with [filter] one
    of [QDir::Dirs] and [QDir::Files]: the names of the entries of [dir] of
    that kind.  Neither call of the source passes [QDir::Hidden] ("list
    hidden files (on Unix, files starting with a dot)"), and without that
    flag [entryList] leaves hidden entries out.  A path that is not a
    directory has no entries.  (Qt sorts the names; here they come in the
    order of the map, and no property below depends on the order among
    the entries of one kind.) *)
Definition entryList (t : gmap Path Kind) (dir : Path) (filter : Kind)
  : list string :=
  match t !! dir with
  | Some Dir =>
      omap (λ e, if decide (e.2 = filter) then
                   if isHidden e.1 then None else Some e.1
                 else None) (children t dir)
  | _ => []
  end.

(** [QFile::remove(p)]: deletes a regular file. *)
Definition QFile_remove (p : Path) (d : Disk) : Disk :=
  match tree d !! p with
  | Some File =>
      {| tree := delete p (tree d);
         journal := journal d ++
           [{| op := OpRemove; target := p; before := tree d; ok := true |}] |}
  | _ =>
      {| tree := tree d;
         journal := journal d ++
           [{| op := OpRemove; target := p; before := tree d; ok := false |}] |}
  end.

(** [QDir::rmdir(p)]: deletes a directory, which must be empty. *)
Definition QDir_rmdir (p : Path) (d : Disk) : Disk :=
  match tree d !! p, children (tree d) p with
  | Some Dir, [] =>
      {| tree := delete p (tree d);
         journal := journal d ++
           [{| op := OpRmdir; target := p; before := tree d; ok := true |}] |}
  | _, _ =>
      {| tree := tree d;
         journal := journal d ++
           [{| op := OpRmdir; target := p; before := tree d; ok := false |}] |}
  end.

(** [foreach (x, l) body], where the body may run out of fuel. *)
Fixpoint foreach {A S : Type} (l : list A) (body : A → S → option S) (s : S)
  : option S :=
  match l with
  | [] => Some s
  | a :: l' =>
      match body a s with
      | Some s' => foreach l' body s'
      | None => None
      end
  end.

(** [void RemoveRecursive(const QString& path)]; one unit of fuel per
    nested call, [None] when it runs out. *)
Fixpoint RemoveRecursive (fuel : nat) (path : Path) (d : Disk) : option Disk :=
  match fuel with
  | O => None
  | S fuel' =>
      match foreach (entryList (tree d) path Dir)
                    (λ child, RemoveRecursive fuel' (path ++ [child])) d with
      | None => None
      | Some d1 =>
          match foreach (entryList (tree d1) path File)
                        (λ child d', Some (QFile_remove (path ++ [child]) d')) d1 with
          | None => None
          | Some d2 => Some (QDir_rmdir path d2)
          end
      end
  end.

(** The length of the longest path of a tree; [S (height t)] nested calls
    are enough for any [RemoveRecursive] on [t]. *)
Definition height (t : gmap Path Kind) : nat :=
  max_list (length <$> (map_to_list t).*1).

(** *** [MakeTempDir] *)

(** [QDir::mkdir(p)]: creates the directory [p] when nothing is there and
    the directory above it exists (the root always does). *)
Definition QDir_mkdir (p : Path) (t : gmap Path Kind) : gmap Path Kind :=
  match t !! p, split_last p with
  | None, Some (parent, _) =>
      if decide (parent = [] ∨ t !! parent = Some Dir) then <[p := Dir]> t
      else t
  | _, _ => t
  end.

(** [QString MakeTempDir()].  [tempfile] is what [QTemporaryFile::open]
    did: [Some p] when it created the file [p], under a name of its own
    choice, [None] when it failed, in which case [fileName()] is empty.
    The file is removed at the end of the inner block. *)
Definition MakeTempDir (tempfile : option Path) (t : gmap Path Kind)
  : Path * gmap Path Kind :=
  let '(path, t) :=
    match tempfile with
    | Some p => (p, delete p (<[p := File]> t))
    | None => ([], t)
    end in
  (path, QDir_mkdir path t).

(** *** [ColorToRgba] *)

(** The four components of a [QColor], as [red()], [green()], [blue()] and
    [alpha()] return them. *)
Record QColor := {
  red : Z;
  green : Z;
  blue : Z;
  alpha : Z;
}.

(** [QString ColorToRgba(const QColor& c)]. *)
Definition ColorToRgba (c : QColor) : string :=
  arg (arg (arg (arg "rgba(%1, %2, %3, %4)" (pretty (red c)))
                (pretty (green c)))
           (pretty (blue c)))
      (pretty (alpha c)).

(** *** [GetConfigPath] *)

(** The enumerators the [switch] of [GetConfigPath] names. *)
Inductive ConfigPath :=
  | Path_Root
  | Path_AlbumCovers
  | Path_NetworkCache
  | Path_GstreamerRegistry
  | Path_DefaultMusicLibrary.

(** What [GetConfigPath] asks the application and the system for. *)
Record Application := {
  Q_OS_DARWIN : bool;
  homePath : string;
  organizationName : string;
  applicationVersion : string;
  GetApplicationSupportPath : string;
  GetMusicDirectory : string;
}.

(** [QString GetConfigPath(ConfigPath config)].  The calls
    [GetConfigPath(Path_Root)] of the other cases are the first case
    here. *)
Definition GetConfigPath (app : Application) (config : ConfigPath) : string :=
  let root :=
    if Q_OS_DARWIN app
    then GetApplicationSupportPath app +:+ "/" +:+ organizationName app
    else arg2 "%1/.config/%2" (homePath app) (organizationName app) in
  match config with
  | Path_Root => root
  | Path_AlbumCovers => root +:+ "/albumcovers"
  | Path_NetworkCache => root +:+ "/networkcache"
  | Path_GstreamerRegistry =>
      root +:+ arg "/gst-registry-%1-bin" (applicationVersion app)
  | Path_DefaultMusicLibrary =>
      if Q_OS_DARWIN app then GetMusicDirectory app else homePath app
  end.

End Utilities.

(** ** [closure.cpp]: deferred slot invocation *)

Module Closure.

(** Modelled from the spec: [core/timeconstants.h], which declares
    [kMsecPerSec], is not among the sources; the constant is the number of
    milliseconds in a second, as the delay "in milliseconds" of a number
    of seconds requires. *)
Definition kMsecPerSec : Z := 1000.

(** A pending [QTimer::singleShot(msec, receiver, slot)]. *)
Record SingleShot := {
  msec : Z;
  receiver : string;
  slot : string;
}.

(** The part of the application [DoInAMinuteOrSo] touches: the values
    [qrand()] is going to return, how many it has returned, and the timers
    that were started. *)
Record App := {
  qrand_sequence : nat → Z;
  qrand_calls : nat;
  timers : list SingleShot;
}.

(** [qrand()]: the next value of the sequence. *)
Definition qrand (a : App) : Z * App :=
  (qrand_sequence a (qrand_calls a),
   {| qrand_sequence := qrand_sequence a;
      qrand_calls := S (qrand_calls a);
      timers := timers a |}).

(** [void DoAfter(QObject* receiver, const char* slot, int msec)]. *)
Definition DoAfter (receiver slot : string) (msec : Z) (a : App) : App :=
  {| qrand_sequence := qrand_sequence a;
     qrand_calls := qrand_calls a;
     timers := timers a ++
       [{| msec := msec; receiver := receiver; slot := slot |}] |}.

(** [void DoInAMinuteOrSo(QObject* receiver, const char* slot)].  The
    product is a [qint64] (the type of [kMsecPerSec]) and is converted to
    the [int] [msec]. *)
Definition DoInAMinuteOrSo (receiver slot : string) (a : App) : App :=
  let '(r, a) := qrand a in
  let msec := to_int ((60 + Z.rem r 60) * kMsecPerSec) in
  DoAfter receiver slot msec a.

(** [qrand()] returns values between [0] and [RAND_MAX], an [int]. *)
Definition qrand_in_range (a : App) : Prop :=
  ∀ i, 0 <= qrand_sequence a i <= INT_MAX.

End Closure.

Import Utilities Closure.

(** ** Notions the properties are stated with, and sample data *)

(** The buffer after the first [pos] bytes of [B] were read into it:
    those bytes, followed by what the fresh array [junk] held. *)
Definition filled (B junk : list byte) (pos : Z) : list byte :=
  take (Z.to_nat pos) B ++ drop (Z.to_nat pos) junk.

(** The devices once both are open and the size was asked for. *)
Definition after_open (w : World) : World :=
  {| source := (size (open ReadOnly (source w)).2).2;
     destination := (open WriteOnly (destination w)).2 |}.

(** No path of the tree is longer than [n]. *)
Definition bounded (t : gmap Path Kind) (n : nat) : Prop :=
  ∀ q, is_Some (t !! q) → (length q ≤ n)%nat.

(** A step that removed a directory found it without entries. *)
Definition emptied (s : Step) : Prop :=
  op s = OpRmdir → ok s = true → children (before s) (target s) = [].

(** [t'] is [t] without some of the paths that satisfy [P]. *)
Definition pruned (P : Path → Prop) (t t' : gmap Path Kind) : Prop :=
  ∀ q, t' !! q = t !! q ∨ (t' !! q = None ∧ P q).

(** What a call [RemoveRecursive(p)] leaves behind: new steps at or below
    [p], the last of which is the [rmdir] of [p]; every directory that was
    removed had been emptied; and the tree lost nothing but paths at or
    below [p]. *)
Definition ran (p : Path) (d d' : Disk) : Prop :=
  (∃ body last,
     journal d' = journal d ++ body ++ [last] ∧
     op last = OpRmdir ∧ target last = p ∧
     Forall (λ s, p `prefix_of` target s ∧ emptied s) (body ++ [last])) ∧
  pruned (λ q, p `prefix_of` q) (tree d) (tree d').

(** Below [p] every entry lies in a directory and is not hidden. *)
Definition tidy (t : gmap Path Kind) (p : Path) : Prop :=
  ∀ q name, p `prefix_of` q → is_Some (t !! (q ++ [name])) →
    t !! q = Some Dir ∧ isHidden name = false.

(** Nothing is left at or below [p]. *)
Definition cleared (t : gmap Path Kind) (p : Path) : Prop :=
  ∀ q, p `prefix_of` q → t !! q = None.

(** A closed device with the given contents and script. *)
Definition device (can_open : bool) (bytes : list byte) (script : list Reply)
  : QIODevice :=
  {| openable := can_open; openMode := NotOpen; contents := bytes;
     position := 0%nat; replies := script; calls := [] |}.

(** A fresh array that happens to hold zeros. *)
Definition zeros : nat → byte := λ _, x00.

Definition abc : list byte := [x61; x62; x63].

(** A source of three bytes whose first read obtains one byte and whose
    second read obtains none. *)
Definition truncated_source : QIODevice := device true abc [Grant 1; Grant 0].

(** A directory [tmp] with a subdirectory [covers] that holds a picture
    and a hidden file. *)
Definition hidden_tree : gmap Path Kind :=
  list_to_map
    [ (["tmp"], Dir);
      (["tmp"; "covers"], Dir);
      (["tmp"; "covers"; "a.jpg"], File);
      (["tmp"; "covers"; ".directory"], File) ].

(** A directory [tmp] that holds the hidden subdirectory [.cache] with a
    file in it, the hidden file [.lock] and the file [b]. *)
Definition cache_tree : gmap Path Kind :=
  list_to_map
    [ (["tmp"], Dir);
      (["tmp"; ".cache"], Dir);
      (["tmp"; ".cache"; "x"], File);
      (["tmp"; ".lock"], File);
      (["tmp"; "b"], File) ].

(** A Unix system with one volume, mounted at [/]. *)
Definition unix_example : OS :=
  {| platform := Q_OS_UNIX;
     statvfs := λ p, if String.eqb p "/" then
                       Some {| f_bsize := 4096; f_blocks := 1000; f_bavail := 250 |}
                     else None;
     GetDiskFreeSpaceEx := λ _, None |}.

Definition app_example : App :=
  {| qrand_sequence := λ i, (1103515245 * Z.of_nat i + 12345) mod 2 ^ 31;
     qrand_calls := 0; timers := [] |}.

(** Every character of a string passes a test. *)
Fixpoint string_forall (P : ascii → bool) (s : string) : bool :=
  match s with
  | EmptyString => true
  | String c rest => P c && string_forall P rest
  end.

Definition is_digit (c : ascii) : bool :=
  match digitValue c with Some _ => true | None => false end.

Definition colon : ascii := Ascii.ascii_of_nat 58.

Definition no_percent (s : string) : bool :=
  string_forall (λ c, negb (Ascii.eqb c percent)) s.

(** An application on a system other than Mac OS X; its home path holds a
    place marker. *)
Definition linux_app : Application :=
  {| Q_OS_DARWIN := false; homePath := "/home/%2";
     organizationName := "Clementine"; applicationVersion := "0.7";
     GetApplicationSupportPath := ""; GetMusicDirectory := "" |}.

(** Two devices that go through a copy in pieces, and a source that
    fails. *)
Definition slow_world : World :=
  {| source := device true abc [Grant 1; Grant 1];
     destination := device true [x7a] [Grant 2] |}.

Definition failing_world : World :=
  {| source := device true abc [Grant 1; Fail];
     destination := device true [x7a] [] |}.

Definition locked_world : World :=
  {| source := device true abc []; destination := device false [x7a] [] |}.

(** [q] lies at or below [p], and no name between [p] and [q] is
    hidden. *)
Definition visible_below (p q : Path) : Prop :=
  ∃ k, q = p ++ k ∧ Forall (λ name, isHidden name = false) k.

(** A directory with one file in it. *)
Definition small_tree : gmap Path Kind :=
  list_to_map [ (["tmp"], Dir); (["tmp"; "a"], File) ].

(** * Properties *)

(** ** [PrettyTime] *)

Lemma to_int_id (z : Z) : is_int z → to_int z = z.
Proof.
  unfold is_int, to_int, INT_MIN, INT_MAX. intros Hz.
  rewrite Z.mod_small; lia.
Qed.

Lemma to_int_neg_INT_MIN : to_int (- INT_MIN) = INT_MIN.
Proof. reflexivity. Qed.

(** [qAbs] does not tell an [int] from its negation, also where the
    negation wraps around. *)
Lemma qAbs_negation (s : Z) : is_int s → qAbs (to_int (- s)) = qAbs s.
Proof.
  intros Hs. destruct (decide (s = INT_MIN)) as [->|Hne].
  - by rewrite to_int_neg_INT_MIN.
  - assert (Hn : is_int (- s)) by (unfold is_int, INT_MIN, INT_MAX in *; lia).
    rewrite (to_int_id _ Hn). unfold qAbs.
    destruct (Z.leb_spec 0 (- s)), (Z.leb_spec 0 s);
      rewrite ?Z.opp_involutive, ?to_int_id by done; lia.
Qed.

Lemma qAbs_abs (s : Z) : is_int s → is_int (- s) → qAbs s = Z.abs s.
Proof.
  intros Hs Hn. unfold qAbs. destruct (Z.leb_spec 0 s).
  - lia.
  - rewrite to_int_id by done. lia.
Qed.

(** C9. For every [int] number of seconds [s], [PrettyTime(s)] and
    [PrettyTime(-s)] are the same string: with the negation computed on
    [int], and so with the mathematical negation whenever that is an [int];
    the string is then the one of the absolute value of [s]. *)
Theorem PrettyTime_negation (s : Z) :
  is_int s →
  PrettyTime s = PrettyTime (to_int (- s)) ∧
  (is_int (- s) →
   PrettyTime s = PrettyTime (- s) ∧ PrettyTime s = PrettyTime (Z.abs s)).
Proof.
  intros Hs.
  assert (H1 : PrettyTime s = PrettyTime (to_int (- s))).
  { unfold PrettyTime. by rewrite qAbs_negation. }
  split; [done|]. intros Hn. split.
  - by rewrite H1, to_int_id.
  - unfold PrettyTime. rewrite (qAbs_abs s) by done.
    assert (Ha : qAbs (Z.abs s) = Z.abs s).
    { unfold qAbs. destruct (Z.leb_spec 0 (Z.abs s)); [done | lia]. }
    by rewrite Ha.
Qed.

Lemma PrettyTime_negation_witness :
  is_int (-59) ∧ PrettyTime (-59) = "0:59" ∧
  PrettyTime (-59) = PrettyTime (to_int (- -59)).
Proof.
  assert (H : is_int (-59)) by (unfold is_int, INT_MIN, INT_MAX; lia).
  split; [exact H|]. split; [reflexivity|].
  exact (proj1 (PrettyTime_negation (-59) H)).
Defined.

(** ** [DoInAMinuteOrSo] *)

(** C10. Every call of [DoInAMinuteOrSo] starts exactly one timer, for the
    receiver's slot, with a delay of [60 + r] seconds where [r] is between
    0 and 59: between 60000 and 119000 milliseconds. *)
Theorem DoInAMinuteOrSo_delay (receiver slot : string) (a : App) :
  qrand_in_range a →
  ∃ r, 0 <= r <= 59 ∧
    timers (DoInAMinuteOrSo receiver slot a) =
      timers a ++ [{| msec := (60 + r) * 1000;
                      receiver := receiver; slot := slot |}] ∧
    60000 <= (60 + r) * 1000 <= 119000.
Proof.
  intros Hrange. unfold DoInAMinuteOrSo, qrand, DoAfter; simpl.
  pose proof (Hrange (qrand_calls a)) as Hr.
  set (q := qrand_sequence a (qrand_calls a)) in *.
  exists (Z.rem q 60).
  assert (Hrem : 0 <= Z.rem q 60 <= 59).
  { rewrite Z.rem_mod_nonneg by lia. pose proof (Z.mod_pos_bound q 60). lia. }
  split; [done|]. split; [|lia].
  unfold kMsecPerSec. rewrite to_int_id; [done|].
  unfold is_int, INT_MIN, INT_MAX. lia.
Qed.

Lemma DoInAMinuteOrSo_delay_witness :
  qrand_in_range app_example ∧
  ∃ r, 0 <= r <= 59 ∧
    timers (DoInAMinuteOrSo "player" "1Reload()" app_example) =
      timers app_example ++ [{| msec := (60 + r) * 1000;
                                receiver := "player"; slot := "1Reload()" |}] ∧
    60000 <= (60 + r) * 1000 <= 119000.
Proof.
  assert (H : qrand_in_range app_example).
  { intros i. unfold app_example, INT_MAX, qrand_sequence.
    pose proof (Z.mod_pos_bound (1103515245 * Z.of_nat i + 12345) (2 ^ 31)).
    lia. }
  split; [exact H|]. exact (DoInAMinuteOrSo_delay "player" "1Reload()" app_example H).
Defined.

(** ** [FileSystemCapacity] and [FileSystemFreeSpace] *)

(** C6. When the operating system's query for [path] fails, both
    [FileSystemCapacity(path)] and [FileSystemFreeSpace(path)] return
    zero. *)
Theorem FileSystem_query_failure (os : OS) (path : string) :
  os_query_fails os path →
  FileSystemCapacity os path = 0 ∧ FileSystemFreeSpace os path = 0.
Proof.
  unfold os_query_fails, FileSystemCapacity, FileSystemFreeSpace.
  destruct (platform os); intros Hfail; by rewrite ?Hfail.
Qed.

Example FileSystemCapacity_example :
  FileSystemCapacity unix_example "/" = 4096000 ∧
  FileSystemFreeSpace unix_example "/" = 1024000.
Proof. split; reflexivity. Qed.

Lemma FileSystem_query_failure_witness :
  os_query_fails unix_example "/no/such/dir" ∧
  FileSystemCapacity unix_example "/no/such/dir" = 0 ∧
  FileSystemFreeSpace unix_example "/no/such/dir" = 0.
Proof.
  assert (H : os_query_fails unix_example "/no/such/dir") by reflexivity.
  split; [exact H|].
  exact (FileSystem_query_failure unix_example "/no/such/dir" H).
Defined.

(** ** [Copy] *)

(** C4. When opening the source fails, [Copy] returns false and has made no
    call on the destination: the destination is as it was (not opened,
    nothing written), and the only call on the source is the failed
    [open]. *)
Theorem Copy_source_open_fails (uninit : nat → byte) (fuel : nat) (w : World) :
  openable (source w) = false →
  Copy uninit fuel w =
    (Return false,
     {| source := logged (CallOpen ReadOnly false) (source w);
        destination := destination w |}).
Proof.
  intros Hclosed. unfold Copy, bind, source_open, open. by rewrite Hclosed.
Qed.

Lemma Copy_source_open_fails_witness :
  Copy zeros 4
    {| source := device false abc []; destination := device true [x01] [] |} =
  (Return false,
   {| source := logged (CallOpen ReadOnly false) (device false abc []);
      destination := device true [x01] [] |}).
Proof.
  exact (Copy_source_open_fails zeros 4
           {| source := device false abc [];
              destination := device true [x01] [] |} eq_refl).
Defined.

(** C7. A source of length zero: when both devices open, each loop of
    [Copy] makes one transfer of zero bytes and stops, [Copy] returns true,
    and the destination holds zero bytes.  One unit of fuel is enough. *)
Theorem Copy_empty_source (uninit : nat → byte) (fuel : nat) (w : World) :
  openable (source w) = true →
  openable (destination w) = true →
  contents (source w) = [] →
  ∃ w',
    Copy uninit (S fuel) w = (Return true, w') ∧
    contents (destination w') = [] ∧
    calls (source w') =
      calls (source w) ++ [CallOpen ReadOnly true; CallSize 0; CallRead 0 0] ∧
    calls (destination w') =
      calls (destination w) ++ [CallOpen WriteOnly true; CallWrite [] 0].
Proof.
  intros Hsrc Hdst Hempty. eexists.
  unfold Copy, bind, source_open, open. rewrite Hsrc. simpl.
  unfold destination_open, open. simpl. rewrite Hdst. simpl.
  unfold source_size, size. simpl. rewrite Hempty. simpl.
  split; [reflexivity|]. simpl. by rewrite <- !(assoc_L (++)).
Qed.

Lemma Copy_empty_source_witness :
  ∃ w',
    Copy zeros 1
      {| source := device true [] []; destination := device true abc [] |} =
      (Return true, w') ∧
    contents (destination w') = [] ∧
    calls (source w') = [CallOpen ReadOnly true; CallSize 0; CallRead 0 0] ∧
    calls (destination w') = [CallOpen WriteOnly true; CallWrite [] 0].
Proof.
  exact (Copy_empty_source zeros 0
           {| source := device true [] []; destination := device true abc [] |}
           eq_refl eq_refl eq_refl).
Defined.

(** *** What one transfer does *)

Lemma take_length_take {A} (n : nat) (l : list A) :
  take (length (take n l)) l = take n l.
Proof.
  rewrite length_take. destruct (Nat.min_spec n (length l)) as [[_ ->]|[? ->]].
  - done.
  - by rewrite !take_ge by lia.
Qed.

(** The bytes a device hands out are its next bytes; it hands out none
    only when its allowance is zero or it is at its end. *)
Lemma chunk_of_spec (d : QIODevice) (a : nat) :
  let chunk := chunk_of d a in
  (length chunk ≤ a)%nat ∧
  chunk = take (length chunk) (drop (position d) (contents d)) ∧
  (length chunk = 0%nat → a = 0%nat ∨ (length (contents d) ≤ position d)%nat).
Proof.
  unfold chunk_of. split_and!.
  - rewrite length_take. lia.
  - by rewrite take_length_take.
  - rewrite length_take, length_drop. lia.
Qed.

(** A read leaves the device open as it was and its contents in place.  It
    fails, which an open device does only when its script says so, or it
    hands out the next bytes of the device, no more than were asked for,
    and none only if the script grants none or the device is at its
    end. *)
Lemma read_cases (maxSize : Z) (d : QIODevice) :
  0 <= maxSize →
  ∃ ret chunk d',
    read maxSize d = (ret, chunk, d') ∧
    openable d' = openable d ∧ openMode d' = openMode d ∧
    contents d' = contents d ∧
    (∀ r, r ∈ replies d' → r ∈ replies d) ∧
    ((ret = -1 ∧ (isReadable d = true → Fail ∈ replies d)) ∨
     (ret = Z.of_nat (length chunk) ∧ ret <= maxSize ∧
      chunk = take (length chunk) (drop (position d) (contents d)) ∧
      position d' = (position d + length chunk)%nat ∧
      (ret = 0 → 0 < maxSize →
       Grant 0 ∈ replies d ∨ (length (contents d) ≤ position d)%nat))).
Proof.
  intros Hmax. unfold read.
  destruct (isReadable d) eqn:Hr; simpl.
  2:{ eexists _, _, _. split; [done|]. split_and!; try done. by left. }
  destruct (Z.ltb_spec maxSize 0); [lia|].
  destruct (Z.eqb_spec maxSize 0) as [->|Hnz]; simpl.
  { eexists _, _, _. split; [done|]. split_and!; try done.
    right. split_and!; simpl; (done || lia). }
  destruct (replies d) as [|[|n] rest] eqn:Hrep; simpl;
    eexists _, _, _; (split; [done|]); simpl; split_and!; try done.
  - pose proof (chunk_of_spec d (Z.to_nat maxSize)) as (H1 & H2 & H3).
    right. split; [done|]. split; [lia|]. split; [done|]. split; [done|].
    intros H0 _. right. destruct H3 as [H3|H3]; [lia|lia|done].
  - set_solver.
  - left. split; [done|]. intros _. set_solver.
  - set_solver.
  - pose proof (chunk_of_spec d (n `min` Z.to_nat maxSize)) as (H1 & H2 & H3).
    right. split; [done|]. split; [lia|]. split; [done|]. split; [done|].
    intros H0 _. destruct H3 as [H3|H3]; [lia| |by right].
    left. assert (n = 0%nat) as -> by lia. set_solver.
Qed.

(** A write leaves the device open as it was.  It fails, which an open
    device does only when its script says so, or it appends the first
    bytes of what it is offered, and none of a non-empty offer only if
    the script grants none. *)
Lemma write_cases (offered : list byte) (d : QIODevice) :
  ∃ ret d',
    write offered d = (ret, d') ∧
    openable d' = openable d ∧ openMode d' = openMode d ∧
    (∀ r, r ∈ replies d' → r ∈ replies d) ∧
    (∃ c, calls d' = calls d ++ [CallWrite offered c]) ∧
    ((ret = -1 ∧ contents d' = contents d ∧
      (isWritable d = true → Fail ∈ replies d)) ∨
     (0 <= ret <= Z.of_nat (length offered) ∧
      contents d' = contents d ++ take (Z.to_nat ret) offered ∧
      (ret = 0 → offered ≠ [] → Grant 0 ∈ replies d))).
Proof.
  unfold write. destruct (isWritable d) eqn:Hw; simpl.
  2:{ eexists _, _. split; [done|]. split_and!; try done; [by eexists|].
      by left. }
  destruct offered as [|b offered].
  { eexists _, _. split; [done|]. split_and!; try done; [by eexists|].
    right. simpl. split_and!; try done. by rewrite app_nil_r. }
  destruct (replies d) as [|[|n] rest] eqn:Hrep;
    eexists _, _; (split; [done|]); simpl; split_and!; try done;
    try (by eexists); try set_solver.
  - right. split_and!; [lia|lia| |lia].
    by rewrite Nat2Z.id, take_ge by (simpl; lia).
  - right. rewrite length_take. simpl length. split_and!; [lia|lia| |].
    + rewrite Nat2Z.id. f_equal. rewrite <- (take_length_take n (b :: offered)).
      by rewrite length_take.
    + intros H0 _. assert (n = 0%nat) as -> by lia. set_solver.
Qed.

Lemma read_frame (maxSize : Z) (d : QIODevice) :
  openable (read maxSize d).2 = openable d ∧
  openMode (read maxSize d).2 = openMode d ∧
  contents (read maxSize d).2 = contents d.
Proof.
  unfold read.
  destruct (negb (isReadable d) || (maxSize <? 0)); [done|].
  destruct (maxSize =? 0); [done|].
  by destruct (replies d) as [|[|n] rest].
Qed.

Lemma write_frame (offered : list byte) (d : QIODevice) :
  openable (write offered d).2 = openable d ∧
  openMode (write offered d).2 = openMode d.
Proof.
  unfold write. destruct (negb (isWritable d)); [done|].
  destruct offered; [done|]. by destruct (replies d) as [|[|n] rest].
Qed.

Section CopyProofs.

Variable uninit : nat → byte.

(** *** The loops leave the devices open *)

(** The read loop makes no call on the destination and leaves the source
    in the mode it was opened in. *)
Lemma read_loop_frame (fuel : nat) (bytes : Z) (data : list byte) (pos : Z)
    (w : World) :
  destination (read_loop fuel bytes data pos w).2 = destination w ∧
  openMode (source (read_loop fuel bytes data pos w).2) = openMode (source w).
Proof.
  revert data pos w. induction fuel as [|fuel IH]; intros data pos w; [done|].
  simpl. unfold bind, source_read.
  pose proof (read_frame (bytes - pos) (source w)) as (_ & Hmode & _).
  destruct (read (bytes - pos) (source w)) as [[ret chunk] d'] eqn:Hread.
  simpl in *. destruct (ret =? -1); [done|].
  destruct ((0 <? ret) && negb (pos + ret =? bytes)); [|done].
  destruct (IH (store data pos chunk) (pos + ret)
              {| source := d'; destination := destination w |}) as [-> ->].
  done.
Qed.

(** The write loop makes no call on the source and leaves the destination
    in the mode it was opened in. *)
Lemma write_loop_frame (fuel : nat) (bytes : Z) (data : list byte) (pos : Z)
    (w : World) :
  source (write_loop fuel bytes data pos w).2 = source w ∧
  openMode (destination (write_loop fuel bytes data pos w).2) =
    openMode (destination w).
Proof.
  revert pos w. induction fuel as [|fuel IH]; intros pos w; [done|].
  simpl. unfold bind, destination_write.
  pose proof (write_frame (region data pos (bytes - pos)) (destination w))
    as (_ & Hmode).
  destruct (write (region data pos (bytes - pos)) (destination w))
    as [ret d'] eqn:Hwrite.
  simpl in *. destruct (ret =? -1); [done|].
  destruct ((0 <? ret) && negb (pos + ret =? bytes)); [|done].
  destruct (IH (pos + ret) {| source := source w; destination := d' |})
    as [-> ->].
  done.
Qed.

(** C3, as amended.  [Copy] closes neither device, on any path: when the
    devices are not open before the call then after it, whatever it
    returned, the source is open exactly if its [open] succeeded and the
    destination is open exactly if both [open]s succeeded. *)
Theorem Copy_leaves_devices_open (fuel : nat) (w : World) :
  isOpen (source w) = false →
  isOpen (destination w) = false →
  isOpen (source (Copy uninit fuel w).2) = openable (source w) ∧
  isOpen (destination (Copy uninit fuel w).2) =
    openable (source w) && openable (destination w).
Proof.
  intros Hsrc Hdst. unfold Copy, bind, source_open, open.
  destruct (openable (source w)) eqn:Hos; simpl; [|done].
  unfold destination_open, open; simpl.
  destruct (openable (destination w)) eqn:Hod; simpl; [|done].
  unfold source_size, size; simpl.
  match goal with
  | |- context [read_loop ?f ?b ?d ?p ?w0] =>
      pose proof (read_loop_frame f b d p w0) as [Hd Hs];
      destruct (read_loop f b d p w0) as [[data| |] w1]
  end; simpl in *.
  - match goal with
    | |- context [write_loop ?f ?b ?d ?p ?w0] =>
        pose proof (write_loop_frame f b d p w0) as [Hs' Hd'];
        destruct (write_loop f b d p w0) as [[[]| |] w2]
    end; simpl in *; unfold isOpen; by rewrite ?Hs', ?Hd', ?Hs, ?Hd.
  - unfold isOpen. by rewrite Hs, Hd.
  - unfold isOpen. by rewrite Hs, Hd.
Qed.

(** *** What the loops compute *)

Lemma filled_length (B junk : list byte) (pos : Z) :
  length junk = length B → length (filled B junk pos) = length B.
Proof.
  intros Hlen. unfold filled. rewrite length_app, length_take, length_drop. lia.
Qed.

Lemma filled_all (B junk : list byte) :
  length junk = length B → filled B junk (Z.of_nat (length B)) = B.
Proof.
  intros Hlen. unfold filled. rewrite Nat2Z.id, take_ge, drop_ge by lia.
  by rewrite app_nil_r.
Qed.

(** Storing the next bytes of [B] behind the ones already read. *)
Lemma store_filled (B junk chunk : list byte) (pos : Z) :
  length junk = length B → 0 <= pos <= Z.of_nat (length B) →
  chunk = take (length chunk) (drop (Z.to_nat pos) B) →
  store (filled B junk pos) pos chunk =
    filled B junk (pos + Z.of_nat (length chunk)).
Proof.
  intros Hlen Hpos Hchunk. unfold store, filled.
  assert (Hn : (Z.to_nat pos + length chunk ≤ length B)%nat).
  { apply (f_equal length) in Hchunk as Hl.
    rewrite length_take, length_drop in Hl. lia. }
  replace (Z.to_nat (pos + Z.of_nat (length chunk)))
    with (Z.to_nat pos + length chunk)%nat by lia.
  rewrite take_app_le by (rewrite length_take; lia).
  rewrite take_take, Nat.min_id.
  rewrite drop_app_ge by (rewrite length_take; lia).
  rewrite length_take, drop_drop.
  replace (Z.to_nat pos `min` length B)%nat with (Z.to_nat pos) by lia.
  replace (Z.to_nat pos + (Z.to_nat pos + length chunk - Z.to_nat pos))%nat
    with (Z.to_nat pos + length chunk)%nat by lia.
  rewrite app_assoc. f_equal.
  rewrite <- (take_drop (Z.to_nat pos) (take (Z.to_nat pos + length chunk) B)).
  rewrite take_take. replace (Z.to_nat pos `min` (Z.to_nat pos + length chunk))%nat
    with (Z.to_nat pos) by lia.
  f_equal. rewrite Hchunk at 1. by rewrite take_drop_commute.
Qed.

(** The read loop, started with the first [pos] bytes in the buffer and
    enough fuel for the bytes that are missing: it does not run out of
    fuel; it returns false only after a read the script made fail; and
    otherwise it leaves the first [pos'] bytes of the source in the buffer,
    all of them unless the script granted no bytes to some read. *)
Lemma read_loop_spec (B junk : list byte) (fuel : nat) (pos : Z) (w : World) :
  contents (source w) = B →
  isReadable (source w) = true →
  position (source w) = Z.to_nat pos →
  0 <= pos <= Z.of_nat (length B) →
  length junk = length B →
  (Z.to_nat (Z.of_nat (length B) - pos) < fuel)%nat →
  ∃ fl w',
    read_loop fuel (Z.of_nat (length B)) (filled B junk pos) pos w = (fl, w') ∧
    destination w' = destination w ∧
    match fl with
    | Next data =>
        ∃ pos', pos <= pos' <= Z.of_nat (length B) ∧
          data = filled B junk pos' ∧
          (Grant 0 ∉ replies (source w) → pos' = Z.of_nat (length B))
    | Return ret => ret = false ∧ Fail ∈ replies (source w)
    | OutOfFuel => False
    end.
Proof.
  revert pos w. induction fuel as [|fuel IH]; intros pos w HB Hr Hp Hpos Hlen Hfuel;
    [lia|].
  simpl. unfold bind, source_read.
  destruct (read_cases (Z.of_nat (length B) - pos) (source w))
    as (ret & chunk & d' & -> & _ & Hmode & Hcont & Hrep & Hcase); [lia|].
  simpl. destruct Hcase as [[-> Hfail]|(Hret & Hle & Hchunk & Hp' & Hzero)].
  { simpl. eexists _, _. split; [done|]. simpl. split; [done|]. auto. }
  assert ((ret =? -1) = false) as -> by lia.
  rewrite HB, Hp in Hchunk.
  rewrite (store_filled B junk chunk pos Hlen Hpos Hchunk), <- Hret.
  destruct (Z.ltb_spec 0 ret) as [Hgt|Hngt]; simpl.
  - destruct (Z.eqb_spec (pos + ret) (Z.of_nat (length B))) as [Heq|Hne]; simpl.
    + eexists _, _. split; [done|]. simpl. split; [done|].
      exists (pos + ret). split; [lia|]. done.
    + destruct (IH (pos + ret) {| source := d'; destination := destination w |})
        as (fl & w' & Hloop & Hdst & Hfl); simpl; try (done || lia).
      { by rewrite Hcont. }
      { unfold isReadable in *. by rewrite Hmode. }
      exists fl, w'. split; [done|]. split; [done|].
      destruct fl as [data|ret'|]; [| |done].
      * destruct Hfl as (pos' & Hp1 & Hdata & Hall). exists pos'.
        split; [lia|]. split; [done|]. intros Hno. apply Hall.
        intros Hin. by apply Hno, Hrep.
      * destruct Hfl as [-> Hin]. split; [done|]. by apply Hrep.
  - eexists _, _. split; [done|]. simpl. split; [done|].
    exists (pos + ret). split; [lia|]. split; [done|]. intros Hno.
    assert (ret = 0) as -> by lia.
    destruct (decide (pos = Z.of_nat (length B))) as [->|Hne]; [lia|].
    destruct Hzero as [Hz|Hz]; [done|lia|done|]. rewrite HB in Hz. lia.
Qed.

(** The whole rest of the buffer is offered to each write. *)
Lemma region_rest (data : list byte) (pos : Z) :
  0 <= pos <= Z.of_nat (length data) →
  region data pos (Z.of_nat (length data) - pos) = drop (Z.to_nat pos) data.
Proof.
  intros Hpos. unfold region. apply take_ge. rewrite length_drop. lia.
Qed.

(** The write loop, started with the first [pos] bytes of the buffer in the
    destination and enough fuel for the rest: it does not run out of fuel;
    it returns false only after a write the script made fail; and in every
    case the destination holds the first [pos'] bytes of the buffer, all of
    them when the loop ends normally unless the script granted no bytes to
    some write. *)
Lemma write_loop_spec (data : list byte) (fuel : nat) (pos : Z) (w : World) :
  isWritable (destination w) = true →
  contents (destination w) = take (Z.to_nat pos) data →
  0 <= pos <= Z.of_nat (length data) →
  (Z.to_nat (Z.of_nat (length data) - pos) < fuel)%nat →
  ∃ fl w' pos',
    write_loop fuel (Z.of_nat (length data)) data pos w = (fl, w') ∧
    source w' = source w ∧
    pos <= pos' <= Z.of_nat (length data) ∧
    contents (destination w') = take (Z.to_nat pos') data ∧
    (∃ c more, calls (destination w') =
       calls (destination w) ++ CallWrite (drop (Z.to_nat pos) data) c :: more) ∧
    match fl with
    | Next _ =>
        Grant 0 ∉ replies (destination w) → pos' = Z.of_nat (length data)
    | Return ret => ret = false ∧ Fail ∈ replies (destination w)
    | OutOfFuel => False
    end.
Proof.
  revert pos w. induction fuel as [|fuel IH]; intros pos w Hw Hc Hpos Hfuel;
    [lia|].
  simpl. unfold bind, destination_write. rewrite region_rest by done.
  destruct (write_cases (drop (Z.to_nat pos) data) (destination w))
    as (ret & d' & -> & _ & Hmode & Hrep & [c Hcalls] & Hcase).
  simpl. destruct Hcase as [(-> & Hsame & Hfail)|(Hret & Hcont & Hzero)].
  { simpl. eexists _, _, pos. split; [done|]. simpl.
    split_and!; try done; try lia; [congruence|by eexists _, []|auto]. }
  assert ((ret =? -1) = false) as -> by lia.
  rewrite length_drop in Hret.
  assert (Hc' : contents d' = take (Z.to_nat (pos + ret)) data).
  { rewrite Hcont, Hc, take_take_drop. f_equal. lia. }
  destruct (Z.ltb_spec 0 ret) as [Hgt|Hngt]; simpl.
  - destruct (Z.eqb_spec (pos + ret) (Z.of_nat (length data))) as [Heq|Hne];
      simpl.
    + eexists _, _, (pos + ret). split; [done|]. simpl.
      split_and!; try done; try lia. by eexists _, [].
    + destruct (IH (pos + ret) {| source := source w; destination := d' |})
        as (fl & w' & pos' & Hloop & Hsrc & Hp' & Hdone & Hlog & Hfl); simpl;
        try (done || lia).
      { unfold isWritable in *. by rewrite Hmode. }
      exists fl, w', pos'. split; [done|]. split; [done|].
      split; [lia|]. split; [done|]. split.
      { destruct Hlog as (c' & more & ->). simpl. rewrite Hcalls.
        rewrite <- (assoc_L (++)). by eexists _, _. }
      destruct fl as [[]|ret'|]; [| |done].
      * intros Hno. apply Hfl. intros Hin. by apply Hno, Hrep.
      * destruct Hfl as [-> Hin]. split; [done|]. by apply Hrep.
  - eexists _, _, (pos + ret). split; [done|]. simpl.
    split_and!; try done; try lia; [by eexists _, []|]. intros Hno.
    assert (ret = 0) as -> by lia.
    destruct (decide (pos = Z.of_nat (length data))) as [->|Hne]; [lia|].
    exfalso. apply Hno, Hzero; [done|].
    intros Hnil. apply (f_equal length) in Hnil.
    rewrite length_drop in Hnil. simpl in Hnil. lia.
Qed.

Local Arguments store : simpl never.
Local Arguments filled : simpl never.

(** A read the script grants [n] bytes to. *)
Lemma read_Grant (maxSize : Z) (d : QIODevice) (n : nat) (rest : list Reply) :
  isReadable d = true → 0 < maxSize → replies d = Grant n :: rest →
  ∃ chunk d',
    read maxSize d = (Z.of_nat (length chunk), chunk, d') ∧
    chunk = chunk_of d (n `min` Z.to_nat maxSize) ∧
    openMode d' = openMode d ∧ contents d' = contents d ∧
    position d' = (position d + length chunk)%nat ∧ replies d' = rest.
Proof.
  intros Hr Hmax Hrep. unfold read. rewrite Hr, Hrep. simpl.
  assert ((maxSize <? 0) = false) as -> by lia.
  assert ((maxSize =? 0) = false) as -> by lia.
  eexists _, _. by split_and!.
Qed.

(** The read loop when reads that make progress are followed by one that
    obtains nothing although bytes are missing: the loop ends without a
    failure, with the [sum_list ks] bytes read so far in the buffer and
    the rest of the buffer as it was. *)
Lemma read_loop_short (B junk : list byte) (ks : list nat) (rest : list Reply)
    (fuel : nat) (pos : Z) (w : World) :
  contents (source w) = B →
  isReadable (source w) = true →
  position (source w) = Z.to_nat pos →
  replies (source w) = (Grant <$> ks) ++ Grant 0 :: rest →
  Forall (λ k, 0 < k)%nat ks →
  0 <= pos →
  pos + Z.of_nat (sum_list ks) < Z.of_nat (length B) →
  length junk = length B →
  (length ks < fuel)%nat →
  ∃ w',
    read_loop fuel (Z.of_nat (length B)) (filled B junk pos) pos w =
      (Next (filled B junk (pos + Z.of_nat (sum_list ks))), w') ∧
    destination w' = destination w ∧
    replies (source w') = rest.
Proof.
  revert fuel pos w.
  induction ks as [|k ks IH]; intros fuel pos w HB Hr Hp Hrep Hks Hpos Hsum Hlen
    Hfuel; (destruct fuel as [|fuel]; [simpl in Hfuel; lia|]);
    simpl in Hrep, Hsum; simpl read_loop; unfold bind, source_read.
  - destruct (read_Grant (Z.of_nat (length B) - pos) (source w) 0 rest)
      as (chunk & d' & -> & Hchunk & _ & _ & _ & Hrest); [done|lia|done|].
    assert (chunk = []) as -> by (by rewrite Hchunk).
    simpl. rewrite (store_filled B junk [] pos) by (done || lia).
    simpl. rewrite !Z.add_0_r. by eexists.
  - apply Forall_cons in Hks as [Hk Hks].
    destruct (read_Grant (Z.of_nat (length B) - pos) (source w) k
                ((Grant <$> ks) ++ Grant 0 :: rest))
      as (chunk & d' & -> & Hchunk & Hmode & Hcont & Hp' & Hrep');
      [done|lia|done|].
    assert (Hl : length chunk = k).
    { rewrite Hchunk. unfold chunk_of. rewrite length_take, length_drop, HB. lia. }
    assert (Hc : chunk = take (length chunk) (drop (Z.to_nat pos) B)).
    { rewrite Hl, Hchunk. unfold chunk_of. rewrite HB, Hp. f_equal. lia. }
    simpl. assert ((Z.of_nat (length chunk) =? -1) = false) as -> by lia.
    assert ((0 <? Z.of_nat (length chunk)) = true) as -> by lia.
    assert ((pos + Z.of_nat (length chunk) =? Z.of_nat (length B)) = false)
      as -> by lia.
    simpl. rewrite (store_filled B junk chunk pos) by (done || lia).
    destruct (IH fuel (pos + Z.of_nat (length chunk))
                {| source := d'; destination := destination w |})
      as (w' & Hloop & Hdst & Hrest); simpl;
      try (done || simpl in Hfuel; lia).
    { by rewrite Hcont. }
    { unfold isReadable in *. by rewrite Hmode. }
    exists w'. split; [|done]. rewrite Hloop. do 3 f_equal. lia.
Qed.

(** *** [Copy] as a whole *)

Lemma new_char_length (bytes : Z) :
  length (new_char uninit bytes) = Z.to_nat bytes.
Proof. unfold new_char. by rewrite length_fmap, length_seq. Qed.

Lemma filled_zero (B junk : list byte) : filled B junk 0 = junk.
Proof. done. Qed.

(** When both devices open, [Copy] is its two loops. *)
Lemma Copy_after_open (fuel : nat) (w : World) :
  openable (source w) = true → openable (destination w) = true →
  let bytes := Z.of_nat (length (contents (source w))) in
  Copy uninit fuel w =
    bind (read_loop fuel bytes (new_char uninit bytes) 0)
         (λ data, bind (write_loop fuel bytes data 0) (λ _, return_ true))
         (after_open w).
Proof.
  intros Hs Hd. unfold Copy, after_open, bind at 1, source_open, open.
  rewrite Hs. simpl. unfold bind at 1, destination_open, open. simpl.
  rewrite Hd. simpl. unfold bind at 1, source_size, size. simpl.
  done.
Qed.

Lemma after_open_facts (w : World) :
  openable (source w) = true → openable (destination w) = true →
  contents (source (after_open w)) = contents (source w) ∧
  isReadable (source (after_open w)) = true ∧
  position (source (after_open w)) = 0%nat ∧
  replies (source (after_open w)) = replies (source w) ∧
  isWritable (destination (after_open w)) = true ∧
  contents (destination (after_open w)) = [] ∧
  replies (destination (after_open w)) = replies (destination w) ∧
  calls (destination (after_open w)) =
    calls (destination w) ++ [CallOpen WriteOnly true].
Proof.
  intros Hs Hd. unfold after_open, size, open. rewrite Hs, Hd. by simpl.
Qed.

(** With more fuel than the source has bytes, [Copy] returns.  It returns
    false only when a device refuses to open or a transfer fails, and
    when it returns true and no transfer was granted zero bytes, the
    destination holds the bytes of the source. *)
Lemma Copy_outcome (fuel : nat) (w : World) :
  (length (contents (source w)) < fuel)%nat →
  ∃ ret w',
    Copy uninit fuel w = (Return ret, w') ∧
    (ret = false →
     openable (source w) = false ∨ openable (destination w) = false ∨
     Fail ∈ replies (source w) ∨ Fail ∈ replies (destination w)) ∧
    (ret = true →
     Grant 0 ∉ replies (source w) → Grant 0 ∉ replies (destination w) →
     contents (destination w') = contents (source w)).
Proof.
  intros Hfuel.
  destruct (openable (source w)) eqn:Hs.
  2:{ unfold Copy, bind, source_open, open. rewrite Hs. simpl.
      eexists _, _. split; [done|]. naive_solver. }
  destruct (openable (destination w)) eqn:Hd.
  2:{ unfold Copy, bind, source_open, destination_open, open. rewrite Hs. simpl.
      rewrite Hd. simpl. eexists _, _. split; [done|]. naive_solver. }
  rewrite Copy_after_open by done. simpl.
  destruct (after_open_facts w Hs Hd)
    as (Hc & Hr & Hp & Hrep & Hw & Hdc & Hdrep & _).
  set (B := contents (source w)) in *.
  set (junk := new_char uninit (Z.of_nat (length B))).
  assert (Hjunk : length junk = length B).
  { unfold junk. rewrite new_char_length. lia. }
  destruct (read_loop_spec B junk fuel 0 (after_open w))
    as (fl & w1 & Hread & Hdst & Hfl); try (done || lia).
  rewrite filled_zero in Hread. unfold bind at 1. rewrite Hread.
  destruct fl as [data|ret|]; [|destruct Hfl as [-> Hfail]|done].
  2:{ eexists _, _. split; [done|]. rewrite Hrep in Hfail. naive_solver. }
  destruct Hfl as (pos' & Hpos' & -> & Hall).
  pose proof (write_loop_spec (filled B junk pos') fuel 0 w1) as Hws.
  rewrite filled_length in Hws by done.
  destruct Hws as (fl & w2 & n & Hwrite & _ & Hn & Hcont & _ & Hfl);
    try (done || lia).
  { by rewrite Hdst. }
  { by rewrite Hdst, Hdc, take_0. }
  unfold bind. rewrite Hwrite.
  destruct fl as [[]|ret|]; [|destruct Hfl as [-> Hfail]|done].
  2:{ eexists _, _. split; [done|]. rewrite Hdst, Hdrep in Hfail. naive_solver. }
  eexists _, _. split; [done|]. split; [done|]. intros _ Hno1 Hno2.
  rewrite Hcont, Hfl, Hall by (by rewrite ?Hdst, ?Hrep, ?Hdrep).
  rewrite filled_all by done. rewrite Nat2Z.id. by rewrite take_ge by lia.
Qed.

(** C8. Both devices open, the source reports [N] bytes, the reads obtain
    [sum_list ks] of them, fewer than [N], and the next read obtains
    nothing; no write fails.  Then [Copy] returns true.  Its first write is
    offered all [N] bytes of the buffer: the bytes that were read, followed
    by what the fresh array held at the offsets no read filled.  The
    destination ends up with the first bytes of that buffer, and with all
    of it if no write is granted zero bytes. *)
Theorem Copy_short_read (fuel : nat) (w : World) (ks : list nat)
    (rest : list Reply) :
  let B := contents (source w) in
  let N := length B in
  let buffer :=
    take (sum_list ks) B ++ drop (sum_list ks) (new_char uninit (Z.of_nat N)) in
  openable (source w) = true →
  openable (destination w) = true →
  replies (source w) = (Grant <$> ks) ++ Grant 0 :: rest →
  Forall (λ k, 0 < k)%nat ks →
  (sum_list ks < N)%nat →
  Fail ∉ replies (destination w) →
  (N < fuel)%nat →
  ∃ w',
    Copy uninit fuel w = (Return true, w') ∧
    replies (source w') = rest ∧
    length buffer = N ∧
    (∃ c more, calls (destination w') =
       calls (destination w) ++
         CallOpen WriteOnly true :: CallWrite buffer c :: more) ∧
    (∃ n, contents (destination w') = take n buffer) ∧
    (Grant 0 ∉ replies (destination w) → contents (destination w') = buffer).
Proof.
  intros B N buffer Hs Hd Hrep Hks Hsum Hnofail Hfuel.
  destruct (after_open_facts w Hs Hd)
    as (Hc & Hr & Hp & Hrep' & Hw & Hdc & Hdrep & Hcalls).
  set (junk := new_char uninit (Z.of_nat N)) in *.
  assert (Hjunk : length junk = length B).
  { unfold junk. rewrite new_char_length. lia. }
  assert (Hbuf : buffer = filled B junk (Z.of_nat (sum_list ks))).
  { unfold buffer, filled. by rewrite Nat2Z.id. }
  assert (Hlen : length buffer = N).
  { rewrite Hbuf. by apply filled_length. }
  rewrite Copy_after_open by done. simpl.
  destruct (read_loop_short B junk ks rest fuel 0 (after_open w))
    as (w1 & Hread & Hdst & Hrest); try (done || lia).
  { by rewrite Hrep'. }
  { assert (length ks ≤ sum_list ks)%nat; [|fold N; lia].
    clear -Hks. induction Hks; simpl; lia. }
  rewrite filled_zero, Z.add_0_l, <- Hbuf in Hread.
  unfold bind at 1. unfold junk, N, B in Hread. rewrite Hread.
  pose proof (write_loop_spec buffer fuel 0 w1) as Hws. rewrite Hlen in Hws.
  destruct Hws as (fl & w2 & n & Hwrite & Hsrc & Hn & Hcont & Hlog & Hfl);
    try (done || lia).
  { by rewrite Hdst. }
  { by rewrite Hdst, Hdc, take_0. }
  unfold bind. unfold N, B in Hwrite. rewrite Hwrite.
  rewrite Hdst, ?Hdrep in Hfl.
  destruct fl as [[]|ret|]; [|by destruct Hfl|done].
  exists w2. split; [done|]. split; [by rewrite Hsrc|]. split; [done|]. split.
  { destruct Hlog as (c & more & ->). rewrite Hdst, Hcalls, drop_0.
    rewrite <- (assoc_L (++)). by eexists _, _. }
  split; [by eexists|]. intros Hno.
  rewrite Hcont, (Hfl Hno), Nat2Z.id. apply take_ge. lia.
Qed.

End CopyProofs.

Lemma Copy_short_read_witness :
  ∃ w',
    Copy zeros 4
      {| source := truncated_source; destination := device true [] [] |} =
      (Return true, w') ∧
    contents (destination w') = [x61; x00; x00].
Proof.
  destruct (Copy_short_read zeros 4
              {| source := truncated_source; destination := device true [] [] |}
              [1%nat] [])
    as (w' & Hcopy & _ & _ & _ & _ & Hall).
  - reflexivity.
  - reflexivity.
  - reflexivity.
  - repeat constructor.
  - simpl. lia.
  - simpl. apply not_elem_of_nil.
  - simpl. lia.
  - exists w'. split; [exact Hcopy|]. apply Hall. simpl. apply not_elem_of_nil.
Defined.

(** C1 fails when a transfer obtains nothing before all bytes went
    through.  The source holds [abc]; its first read obtains one byte and
    its second none.  [Copy] returns true, and the destination holds [a]
    followed by two bytes the fresh array happened to hold.  Likewise, when
    the destination accepts nothing, [Copy] returns true and the
    destination is empty. *)
Theorem Copy_reports_success_on_short_transfer :
  (∃ w', Copy zeros 4
           {| source := truncated_source; destination := device true [] [] |} =
           (Return true, w') ∧
         contents (source w') = abc ∧
         contents (destination w') = [x61; x00; x00]) ∧
  (∃ w', Copy zeros 4
           {| source := device true abc [];
              destination := device true [] [Grant 0] |} =
           (Return true, w') ∧
         contents (source w') = abc ∧
         contents (destination w') = []).
Proof. split; eexists; (split; [by vm_compute|]); by vm_compute. Qed.

(** C3 as stated fails.  After a [Copy] that returns true both devices are
    open; after one that returns false because the destination does not
    open, the source is open. *)
Lemma Copy_handles_stay_open :
  (∃ w', Copy zeros 4
           {| source := device true abc []; destination := device true [] [] |} =
           (Return true, w') ∧
         isOpen (source w') = true ∧ isOpen (destination w') = true) ∧
  (∃ w', Copy zeros 4
           {| source := device true abc []; destination := device false [] [] |} =
           (Return false, w') ∧
         isOpen (source w') = true).
Proof. split; eexists; (split; [by vm_compute|]); by vm_compute. Qed.

Lemma Copy_leaves_devices_open_witness :
  let w := {| source := device true abc []; destination := device false [] [] |} in
  isOpen (source (Copy zeros 4 w).2) = true ∧
  isOpen (destination (Copy zeros 4 w).2) = false.
Proof.
  exact (Copy_leaves_devices_open zeros 4
           {| source := device true abc []; destination := device false [] [] |}
           eq_refl eq_refl).
Defined.

(** The scenarios of the specification.  A source of 10 000 bytes and a
    destination whose first write fails: [Copy] returns false. *)
Example Copy_first_write_fails :
  (Copy zeros (Z.to_nat 10001)
     {| source := device true (replicate (Z.to_nat 10000) x41) [];
        destination := device true [] [Fail] |}).1 = Return false.
Proof. by vm_compute. Qed.

(** A copy that goes through, in three reads and two writes. *)
Example Copy_in_pieces :
  ∃ w',
    Copy zeros 4
      {| source := device true abc [Grant 1; Grant 1];
         destination := device true [x7a] [Grant 2] |} = (Return true, w') ∧
    contents (destination w') = abc.
Proof. eexists. split; by vm_compute. Qed.

(** ** [RemoveRecursive] *)

(** *** Reading the tree *)

Lemma split_last_snoc (parent : Path) (name : string) :
  split_last (parent ++ [name]) = Some (parent, name).
Proof.
  unfold split_last. rewrite reverse_app. simpl. by rewrite reverse_involutive.
Qed.

Lemma split_last_Some (p parent : Path) (name : string) :
  split_last p = Some (parent, name) ↔ p = parent ++ [name].
Proof.
  split; [|intros ->; apply split_last_snoc].
  unfold split_last. destruct (reverse p) as [|x l] eqn:Hrev; [done|].
  intros [= <- <-]. apply (inj reverse).
  by rewrite Hrev, reverse_app, reverse_involutive.
Qed.

Lemma child_of_Some (dir p : Path) (name : string) :
  child_of dir p = Some name ↔ p = dir ++ [name].
Proof.
  unfold child_of. destruct (split_last p) as [[parent n]|] eqn:Hsplit.
  - apply split_last_Some in Hsplit as ->. case_decide; subst.
    + split; [by intros [= ->]|]. by intros [_ [= ->]]%app_inj_tail.
    + split; [done|]. intros [? _]%app_inj_tail. done.
  - split; [done|]. intros ->. by rewrite split_last_snoc in Hsplit.
Qed.

(** The entries of a directory are the paths one component below it. *)
Lemma elem_of_children (t : gmap Path Kind) (dir : Path) (name : string)
    (k : Kind) :
  (name, k) ∈ children t dir ↔ t !! (dir ++ [name]) = Some k.
Proof.
  unfold children. rewrite list_elem_of_omap. split.
  - intros ([p k'] & Hin & Hf). simpl in Hf.
    destruct (child_of dir p) as [n|] eqn:Hchild; [|done].
    injection Hf as -> ->. apply child_of_Some in Hchild as ->.
    by apply elem_of_map_to_list in Hin.
  - intros Hlook. exists (dir ++ [name], k). split.
    + by apply elem_of_map_to_list.
    + simpl. by rewrite (proj2 (child_of_Some dir _ name) eq_refl).
Qed.

Lemma children_nil (t : gmap Path Kind) (dir : Path) :
  children t dir = [] ↔ ∀ name, t !! (dir ++ [name]) = None.
Proof.
  split.
  - intros Hnil name. destruct (t !! (dir ++ [name])) as [k|] eqn:Hlook; [|done].
    apply elem_of_children in Hlook. rewrite Hnil in Hlook.
    by apply not_elem_of_nil in Hlook.
  - intros Hnone. destruct (children t dir) as [|[name k] l] eqn:Hch; [done|].
    assert (Hin : (name, k) ∈ children t dir) by (rewrite Hch; left).
    apply elem_of_children in Hin. by rewrite Hnone in Hin.
Qed.

(** What [entryList] lists: the entries of the given kind that are not
    hidden, of a path that is a directory. *)
Lemma elem_of_entryList (t : gmap Path Kind) (dir : Path) (k : Kind)
    (name : string) :
  name ∈ entryList t dir k ↔
  t !! dir = Some Dir ∧ t !! (dir ++ [name]) = Some k ∧ isHidden name = false.
Proof.
  unfold entryList. destruct (t !! dir) as [[]|] eqn:Hdir.
  - split; [by intros ?%not_elem_of_nil|naive_solver].
  - rewrite list_elem_of_omap. split.
    + intros ([n k'] & Hin & Hf). simpl in Hf.
      case_decide; [|done]. destruct (isHidden n) eqn:Hhid; [done|].
      injection Hf as ->. subst k'. by apply elem_of_children in Hin.
    + intros (_ & Hlook & Hhid). exists (name, k). split.
      * by apply elem_of_children.
      * simpl. rewrite decide_True by done. by rewrite Hhid.
  - split; [by intros ?%not_elem_of_nil|naive_solver].
Qed.

(** *** What the calls do to the tree and to the journal *)

Lemma height_bounded (t : gmap Path Kind) : bounded t (height t).
Proof.
  intros q [k Hq]. unfold height. apply max_list_elem_of_le.
  apply list_elem_of_fmap. exists q. split; [done|].
  apply list_elem_of_fmap. exists (q, k). split; [done|].
  by apply elem_of_map_to_list.
Qed.

Lemma pruned_bounded (P : Path → Prop) (t t' : gmap Path Kind) (n : nat) :
  pruned P t t' → bounded t n → bounded t' n.
Proof.
  intros Hpr Hb q [k Hq]. apply Hb.
  destruct (Hpr q) as [Heq|[Hnone _]]; [rewrite <- Heq; by eexists|congruence].
Qed.

Lemma pruned_refl (P : Path → Prop) (t : gmap Path Kind) : pruned P t t.
Proof. intros q. by left. Qed.

Lemma pruned_trans (P : Path → Prop) (t1 t2 t3 : gmap Path Kind) :
  pruned P t1 t2 → pruned P t2 t3 → pruned P t1 t3.
Proof.
  intros H12 H23 q. destruct (H23 q) as [Heq|[Hnone HP]]; [|by right].
  rewrite Heq. apply H12.
Qed.

Lemma pruned_weaken (P Q : Path → Prop) (t t' : gmap Path Kind) :
  (∀ q, P q → Q q) → pruned P t t' → pruned Q t t'.
Proof. intros HPQ Hpr q. destruct (Hpr q) as [?|[? ?]]; [by left|right; auto]. Qed.

Lemma QFile_remove_effect (p : Path) (d : Disk) :
  ∃ s, journal (QFile_remove p d) = journal d ++ [s] ∧
    op s = OpRemove ∧ target s = p ∧ before s = tree d ∧
    (ok s = true ↔ tree d !! p = Some File) ∧
    pruned (λ q, q = p) (tree d) (tree (QFile_remove p d)).
Proof.
  unfold QFile_remove. destruct (tree d !! p) as [[]|] eqn:Hp;
    eexists; (split; [done|]); simpl; split_and!; try done.
  - intros q. destruct (decide (q = p)) as [->|Hne].
    + right. by rewrite lookup_delete_eq.
    + left. by rewrite lookup_delete_ne.
  - apply pruned_refl.
  - apply pruned_refl.
Qed.

Lemma QDir_rmdir_effect (p : Path) (d : Disk) :
  ∃ s, journal (QDir_rmdir p d) = journal d ++ [s] ∧
    op s = OpRmdir ∧ target s = p ∧ before s = tree d ∧ emptied s ∧
    (ok s = true ↔ tree d !! p = Some Dir ∧ children (tree d) p = []) ∧
    pruned (λ q, q = p) (tree d) (tree (QDir_rmdir p d)).
Proof.
  unfold QDir_rmdir.
  destruct (tree d !! p) as [[]|] eqn:Hp;
    [| destruct (children (tree d) p) eqn:Hch |];
    eexists; (split; [done|]); unfold emptied; simpl; split_and!;
    try done; try apply pruned_refl; try naive_solver.
  intros q. destruct (decide (q = p)) as [->|Hne].
  - right. by rewrite lookup_delete_eq.
  - left. by rewrite lookup_delete_ne.
Qed.

(** *** The two loops *)

(** The loop over the files. *)
Lemma files_loop (p : Path) (l : list string) (d : Disk) :
  ∃ d2 rm,
    foreach l (λ child d', Some (QFile_remove (p ++ [child]) d')) d = Some d2 ∧
    journal d2 = journal d ++ rm ∧
    Forall2 (λ child s, op s = OpRemove ∧ target s = p ++ [child]) l rm ∧
    pruned (λ q, ∃ child, child ∈ l ∧ q = p ++ [child]) (tree d) (tree d2).
Proof.
  revert d. induction l as [|c l IH]; intros d; simpl.
  - exists d, []. rewrite app_nil_r. split_and!; try done. apply pruned_refl.
  - destruct (QFile_remove_effect (p ++ [c]) d)
      as (s & Hj & Hop & Htarget & _ & _ & Hpr).
    destruct (IH (QFile_remove (p ++ [c]) d)) as (d2 & rm & Hloop & Hj2 & Hall & Hpr2).
    exists d2, (s :: rm). split; [done|]. split.
    { rewrite Hj2, Hj, <- (assoc_L (++)). done. }
    split; [by constructor|].
    eapply pruned_trans; eapply pruned_weaken; [|exact Hpr| |exact Hpr2];
      simpl; intros q.
    + intros ->. exists c. split; [left|done].
    + intros (c' & Hin & ->). exists c'. split; [by right|done].
Qed.

(** The loop over the subdirectories, when the nested calls return. *)
Lemma dirs_loop (fuel : nat) (p : Path) (n : nat) (l : list string) (d : Disk) :
  (∀ child d0, child ∈ l → bounded (tree d0) n →
     ∃ d', RemoveRecursive fuel (p ++ [child]) d0 = Some d' ∧
           ran (p ++ [child]) d0 d') →
  bounded (tree d) n →
  ∃ d1 sub,
    foreach l (λ child, RemoveRecursive fuel (p ++ [child])) d = Some d1 ∧
    journal d1 = journal d ++ sub ∧
    Forall (λ s, (∃ child, child ∈ l ∧ (p ++ [child]) `prefix_of` target s) ∧
                 emptied s) sub ∧
    (∀ child, child ∈ l →
       ∃ s, s ∈ sub ∧ op s = OpRmdir ∧ target s = p ++ [child]) ∧
    pruned (λ q, ∃ child, child ∈ l ∧ (p ++ [child]) `prefix_of` q)
           (tree d) (tree d1).
Proof.
  revert d. induction l as [|c l IH]; intros d Hcall Hb; simpl.
  - exists d, []. rewrite app_nil_r. split_and!; try done.
    + by intros child ?%not_elem_of_nil.
    + apply pruned_refl.
  - destruct (Hcall c d) as
      (d' & -> & (body & last & Hj & Hop & Htarget & Hall) & Hpr);
      [left|done|].
    destruct (IH d') as (d1 & sub & Hloop & Hj1 & Hall1 & Hcover & Hpr1).
    { intros child d0 Hin. apply Hcall. by right. }
    { by eapply pruned_bounded. }
    exists d1, ((body ++ [last]) ++ sub). split; [done|]. split.
    { by rewrite Hj1, Hj, <- !(assoc_L (++)). }
    split_and!.
    + apply Forall_app. split.
      * eapply Forall_impl; [exact Hall|]. simpl. intros s [Hpre Hem].
        split; [|done]. exists c. split; [left|done].
      * eapply Forall_impl; [exact Hall1|]. simpl.
        intros s [(c' & Hin & Hpre) Hem]. split; [|done].
        exists c'. split; [by right|done].
    + intros child [->|Hin]%elem_of_cons.
      * exists last. split; [|done]. set_solver.
      * destruct (Hcover child Hin) as (s & Hs & Hs').
        exists s. split; [|done]. set_solver.
    + eapply pruned_trans; eapply pruned_weaken; [|exact Hpr| |exact Hpr1];
        simpl; intros q.
      * intros Hpre. exists c. split; [left|done].
      * intros (c' & Hin & Hpre). exists c'. split; [by right|done].
Qed.

Lemma Forall2_covers {A B} (R : A → B → Prop) (l : list A) (k : list B) :
  Forall2 R l k →
  (∀ x, x ∈ l → ∃ y, y ∈ k ∧ R x y) ∧ (∀ y, y ∈ k → ∃ x, x ∈ l ∧ R x y).
Proof.
  induction 1 as [|x y l k HR _ [IH1 IH2]].
  - split; intros ? ?%not_elem_of_nil; done.
  - split.
    + intros x' [->|Hin]%elem_of_cons.
      * exists y. split; [left|done].
      * destruct (IH1 x' Hin) as (y' & ? & ?). exists y'. split; [by right|done].
    + intros y' [->|Hin]%elem_of_cons.
      * exists x. split; [left|done].
      * destruct (IH2 y' Hin) as (x' & ? & ?). exists x'. split; [by right|done].
Qed.

Lemma prefix_snoc_same_length (p : Path) (c f : string) :
  (p ++ [c]) `prefix_of` (p ++ [f]) → c = f.
Proof.
  intros [k Hk]. rewrite <- (assoc_L (++)) in Hk.
  apply app_inv_head in Hk. simpl in Hk. by injection Hk.
Qed.

Lemma prefix_snoc_not_self (p : Path) (c : string) :
  ¬ (p ++ [c]) `prefix_of` p.
Proof. intros Hpre%prefix_length. rewrite length_app in Hpre. simpl in Hpre. lia. Qed.

(** The nested calls remove nothing that the loop over the files is going
    to list: the regular files of [p] are the same before and after. *)
Lemma entryList_File_stable (t t1 : gmap Path Kind) (p : Path) (f : string) :
  pruned (λ q, ∃ child, child ∈ entryList t p Dir ∧ (p ++ [child]) `prefix_of` q)
         t t1 →
  f ∈ entryList t1 p File ↔ f ∈ entryList t p File.
Proof.
  intros Hpr. rewrite !elem_of_entryList.
  assert (Hp : t1 !! p = t !! p).
  { destruct (Hpr p) as [?|[_ (c & _ & Hpre)]]; [done|].
    by apply prefix_snoc_not_self in Hpre. }
  rewrite Hp. destruct (Hpr (p ++ [f])) as [->|[Hnone (c & Hc & Hpre)]]; [done|].
  apply prefix_snoc_same_length in Hpre as ->.
  apply elem_of_entryList in Hc as (_ & Hdir & _). rewrite Hnone, Hdir.
  naive_solver.
Qed.

(** *** One call *)

(** One call of [RemoveRecursive], given that the calls nested in it
    return: the steps it adds to the journal are those of the nested
    calls, one for each subdirectory listed, then one [remove] for each
    file listed, then the [rmdir] of [p]. *)
Lemma RemoveRecursive_level (fuel : nat) (p : Path) (d : Disk) (n : nat) :
  (∀ child d0, child ∈ entryList (tree d) p Dir → bounded (tree d0) n →
     ∃ d', RemoveRecursive fuel (p ++ [child]) d0 = Some d' ∧
           ran (p ++ [child]) d0 d') →
  bounded (tree d) n →
  ∃ d1 d' sub rm last,
    foreach (entryList (tree d) p Dir)
            (λ child, RemoveRecursive fuel (p ++ [child])) d = Some d1 ∧
    journal d1 = journal d ++ sub ∧
    RemoveRecursive (S fuel) p d = Some d' ∧
    journal d' = journal d ++ sub ++ rm ++ [last] ∧
    (∀ s, s ∈ sub →
       ∃ child, child ∈ entryList (tree d) p Dir ∧
                (p ++ [child]) `prefix_of` target s) ∧
    (∀ child, child ∈ entryList (tree d) p Dir →
       ∃ s, s ∈ sub ∧ op s = OpRmdir ∧ target s = p ++ [child]) ∧
    (∀ s, s ∈ rm →
       op s = OpRemove ∧
       ∃ child, child ∈ entryList (tree d) p File ∧ target s = p ++ [child]) ∧
    (∀ child, child ∈ entryList (tree d) p File →
       ∃ s, s ∈ rm ∧ op s = OpRemove ∧ target s = p ++ [child]) ∧
    op last = OpRmdir ∧ target last = p ∧
    (∀ s, s ∈ sub ++ rm ++ [last] → emptied s) ∧
    pruned (λ q, p `prefix_of` q) (tree d) (tree d').
Proof.
  intros Hcall Hb.
  destruct (dirs_loop fuel p n (entryList (tree d) p Dir) d Hcall Hb)
    as (d1 & sub & Hdirs & Hj1 & Hsub & Hcover & Hpr1).
  destruct (files_loop p (entryList (tree d1) p File) d1)
    as (d2 & rm & Hfiles & Hj2 & Hrm & Hpr2).
  destruct (QDir_rmdir_effect p d2)
    as (last & Hj3 & Hop & Htarget & _ & Hem & _ & Hpr3).
  apply Forall2_covers in Hrm as [Hrm1 Hrm2].
  pose proof (entryList_File_stable (tree d) (tree d1) p) as Hstable.
  exists d1, (QDir_rmdir p d2), sub, rm, last.
  split; [done|]. split; [done|]. split.
  { simpl. by rewrite Hdirs, Hfiles. }
  split.
  { by rewrite Hj3, Hj2, Hj1, <- !(assoc_L (++)). }
  split_and!; try done.
  - intros s Hs. by destruct (proj1 (Forall_forall _ _) Hsub s Hs) as [? _].
  - intros s Hs. destruct (Hrm2 s Hs) as (c & Hc & Hops & Hts).
    split; [done|]. exists c. split; [|done]. by apply Hstable.
  - intros c Hc. apply Hstable in Hc; [|done].
    destruct (Hrm1 c Hc) as (s & ? & ? & ?). by exists s.
  - intros s [Hs|[Hs|Hs%list_elem_of_singleton]%elem_of_app]%elem_of_app.
    + by destruct (proj1 (Forall_forall _ _) Hsub s Hs) as [_ ?].
    + destruct (Hrm2 s Hs) as (c & _ & Hops & _).
      intros Hops'. congruence.
    + by subst s.
  - eapply pruned_trans; [|eapply pruned_trans];
      [eapply pruned_weaken; [|exact Hpr1]
      |eapply pruned_weaken; [|exact Hpr2]
      |eapply pruned_weaken; [|exact Hpr3]]; simpl; intros q.
    + intros (c & _ & Hpre). etrans; [|exact Hpre]. by apply prefix_app_r.
    + intros (c & _ & ->). by apply prefix_app_r.
    + by intros ->.
Qed.

(** With enough fuel every call returns.  [n] bounds the length of the
    paths in the tree; a call at [p] needs fuel for the levels between [p]
    and [n], and one unit for itself. *)
Lemma RemoveRecursive_runs (fuel : nat) (p : Path) (d : Disk) (n : nat) :
  bounded (tree d) n → (n + 1 ≤ fuel + length p)%nat → (1 ≤ fuel)%nat →
  ∃ d', RemoveRecursive fuel p d = Some d' ∧ ran p d d'.
Proof.
  revert p d. induction fuel as [|fuel IH]; intros p d Hb Hfuel Hpos; [lia|].
  destruct (RemoveRecursive_level fuel p d n)
    as (d1 & d' & sub & rm & last & _ & _ & Hrun & Hj & Hsub & _ & Hrm & _
        & Hop & Htarget & Hem & Hpr); [|done|].
  { intros child d0 Hin Hb0. apply elem_of_entryList in Hin as (_ & Hdir & _).
    assert (length (p ++ [child]) ≤ n)%nat as Hlen by (apply Hb; by eexists).
    rewrite length_app in Hlen. simpl in Hlen.
    apply IH; [done| |lia]. rewrite length_app. simpl. lia. }
  exists d'. split; [done|]. split; [|done].
  exists (sub ++ rm), last. rewrite <- !(assoc_L (++)).
  split; [done|]. split; [done|]. split; [done|].
  apply Forall_forall. intros s Hs. split; [|by apply Hem].
  apply elem_of_app in Hs as [Hs|[Hs|Hs%list_elem_of_singleton]%elem_of_app].
  - destruct (Hsub s Hs) as (c & _ & Hpre).
    etrans; [|exact Hpre]. by apply prefix_app_r.
  - destruct (Hrm s Hs) as (_ & c & _ & ->). by apply prefix_app_r.
  - by subst s; rewrite Htarget.
Qed.

(** C5 fails on a directory with hidden entries.  [tmp] holds the hidden
    subdirectory [.cache], the hidden file [.lock] and the file [b]; of
    these three entries the listings show only [b].  The call on [tmp]
    makes two calls, the [remove] of [b] and the [rmdir] of [tmp], which
    fails: it never goes into [.cache] and never deletes [.lock], and both
    are still there, with what [.cache] held. *)
Theorem RemoveRecursive_skips_hidden_children :
  ∃ d',
    RemoveRecursive (S (height cache_tree)) ["tmp"]
      {| tree := cache_tree; journal := [] |} = Some d' ∧
    cache_tree !! ["tmp"; ".cache"] = Some Dir ∧
    cache_tree !! ["tmp"; ".lock"] = Some File ∧
    entryList cache_tree ["tmp"] Dir = [] ∧
    entryList cache_tree ["tmp"] File = ["b"] ∧
    (λ s, (op s, target s, ok s)) <$> journal d' =
      [ (OpRemove, ["tmp"; "b"], true);
        (OpRmdir, ["tmp"], false) ] ∧
    tree d' !! ["tmp"] = Some Dir ∧
    tree d' !! ["tmp"; ".cache"] = Some Dir ∧
    tree d' !! ["tmp"; ".cache"; "x"] = Some File ∧
    tree d' !! ["tmp"; ".lock"] = Some File ∧
    tree d' !! ["tmp"; "b"] = None.
Proof. eexists. split; [by vm_compute|]. by vm_compute. Qed.

(** C2 fails on a directory that holds a hidden file.  [covers] holds a
    picture and the hidden file [.directory]; the call on [tmp] removes the
    picture, and both [rmdir]s fail: [tmp], [covers] and the hidden file
    are still there. *)
Theorem RemoveRecursive_leaves_hidden :
  ∃ d',
    RemoveRecursive (S (height hidden_tree)) ["tmp"]
      {| tree := hidden_tree; journal := [] |} = Some d' ∧
    tree d' !! ["tmp"] = Some Dir ∧
    tree d' !! ["tmp"; "covers"] = Some Dir ∧
    tree d' !! ["tmp"; "covers"; ".directory"] = Some File ∧
    tree d' !! ["tmp"; "covers"; "a.jpg"] = None ∧
    (λ s, (op s, target s, ok s)) <$> journal d' =
      [ (OpRemove, ["tmp"; "covers"; "a.jpg"], true);
        (OpRmdir, ["tmp"; "covers"], false);
        (OpRmdir, ["tmp"], false) ].
Proof. eexists. split; [by vm_compute|]. by vm_compute. Qed.

(** *** Trees without hidden entries *)

Lemma tidy_below (t : gmap Path Kind) (p q : Path) :
  p `prefix_of` q → tidy t p → tidy t q.
Proof. intros Hpq Ht q' name Hq'. apply Ht. by etrans. Qed.

(** Where [p] does not exist, nothing exists below it. *)
Lemma tidy_absent (t : gmap Path Kind) (p : Path) :
  tidy t p → t !! p = None → cleared t p.
Proof.
  intros Ht Hp q [k ->]. induction k as [|x k IH] using rev_ind.
  - by rewrite app_nil_r.
  - destruct (t !! (p ++ k ++ [x])) as [kind|] eqn:Hq; [|done].
    destruct (Ht (p ++ k) x) as [Hdir _]; [by apply prefix_app_r| |congruence].
    rewrite <- (assoc_L (++)). by eexists.
Qed.

(** What exists below [p] lies in a subdirectory of [p] that is not
    hidden, or is an entry of [p] that is not hidden. *)
Lemma tidy_ancestor (t : gmap Path Kind) (p : Path) (name : string) (k : Path) :
  tidy t p → is_Some (t !! (p ++ [name] ++ k)) →
  isHidden name = false ∧ (k ≠ [] → t !! (p ++ [name]) = Some Dir).
Proof.
  intros Ht. induction k as [|x k IH] using rev_ind; intros Hsome.
  - rewrite app_nil_r in Hsome. split; [|done].
    by destruct (Ht p name) as [_ ?].
  - rewrite !(assoc_L (++)) in Hsome.
    destruct (Ht ((p ++ [name]) ++ k) x) as [Hdir _]; [|done|].
    { rewrite <- (assoc_L (++)). by apply prefix_app_r. }
    rewrite <- (assoc_L (++)) in Hdir.
    destruct IH as [Hhid Hk]; [by rewrite Hdir|]. split; [done|]. intros _.
    destruct k as [|y k]; [by rewrite app_nil_r in Hdir|]. by apply Hk.
Qed.

(** The loop over the files leaves none of them. *)
Lemma files_loop_clears (p : Path) (l : list string) (d : Disk) :
  (∀ f, f ∈ l → tree d !! (p ++ [f]) ≠ Some Dir) →
  ∃ d2,
    foreach l (λ child d', Some (QFile_remove (p ++ [child]) d')) d = Some d2 ∧
    (∀ f, f ∈ l → tree d2 !! (p ++ [f]) = None) ∧
    pruned (λ q, ∃ f, f ∈ l ∧ q = p ++ [f]) (tree d) (tree d2).
Proof.
  revert d. induction l as [|c l IH]; intros d Hl; simpl.
  - exists d. split_and!; try done; [by intros f ?%not_elem_of_nil|].
    apply pruned_refl.
  - destruct (QFile_remove_effect (p ++ [c]) d)
      as (s & _ & _ & _ & _ & _ & Hpr).
    set (d1 := QFile_remove (p ++ [c]) d) in *.
    assert (Hc : tree d1 !! (p ++ [c]) = None).
    { unfold d1, QFile_remove.
      destruct (tree d !! (p ++ [c])) as [[]|] eqn:Hlook; simpl.
      - apply lookup_delete_eq.
      - exfalso. by apply (Hl c); [left|].
      - done. }
    destruct (IH d1) as (d2 & Hloop & Hclear & Hpr2).
    { intros f Hf. destruct (Hpr (p ++ [f])) as [->|[-> _]]; [|done].
      apply Hl. by right. }
    exists d2. split; [done|]. split.
    + intros f [->|Hf]%elem_of_cons; [|by apply Hclear].
      destruct (Hpr2 (p ++ [c])) as [->|[? _]]; done.
    + eapply pruned_trans; eapply pruned_weaken; [|exact Hpr| |exact Hpr2];
        simpl; intros q.
      * intros ->. exists c. split; [left|done].
      * intros (f & Hf & ->). exists f. split; [by right|done].
Qed.

(** The loop over the subdirectories leaves nothing of them, when the
    nested calls do. *)
Lemma dirs_loop_clears (fuel : nat) (p : Path) (n : nat) (l : list string)
    (d : Disk) :
  (∀ child d0, child ∈ l → bounded (tree d0) n →
     tidy (tree d0) (p ++ [child]) → tree d0 !! (p ++ [child]) ≠ Some File →
     ∃ d', RemoveRecursive fuel (p ++ [child]) d0 = Some d' ∧
           cleared (tree d') (p ++ [child]) ∧
           pruned (λ q, (p ++ [child]) `prefix_of` q) (tree d0) (tree d')) →
  bounded (tree d) n →
  (∀ child, child ∈ l →
     tidy (tree d) (p ++ [child]) ∧ tree d !! (p ++ [child]) ≠ Some File) →
  ∃ d1,
    foreach l (λ child, RemoveRecursive fuel (p ++ [child])) d = Some d1 ∧
    (∀ child, child ∈ l → cleared (tree d1) (p ++ [child])) ∧
    pruned (λ q, ∃ child, child ∈ l ∧ (p ++ [child]) `prefix_of` q)
           (tree d) (tree d1).
Proof.
  revert d. induction l as [|c l IH]; intros d Hcall Hb Hl; simpl.
  - exists d. split_and!; try done; [by intros f ?%not_elem_of_nil|].
    apply pruned_refl.
  - destruct (Hl c) as [Htidy Hnf]; [left|].
    destruct (Hcall c d) as (d' & -> & Hclear & Hpr); [left|done..|].
    destruct (IH d') as (d1 & Hloop & Hclear1 & Hpr1).
    { intros child d0 Hin. apply Hcall. by right. }
    { by eapply pruned_bounded. }
    { intros child Hin. destruct (Hl child) as [Ht Hf]; [by right|]. split.
      - intros q name Hq Hsome.
        assert (Hsame : tree d' !! (q ++ [name]) = tree d !! (q ++ [name])).
        { destruct (Hpr (q ++ [name])) as [?|[Hnone _]]; [done|].
          rewrite Hnone in Hsome. by destruct Hsome. }
        destruct (Ht q name) as [Hdir Hhid]; [done|by rewrite <- Hsame|].
        split; [|done]. destruct (Hpr q) as [->|[_ Hpre]]; [done|].
        rewrite Hclear in Hsome; [by destruct Hsome|].
        etrans; [exact Hpre|]. by apply prefix_app_r.
      - destruct (Hpr (p ++ [child])) as [->|[-> _]]; done. }
    exists d1. split; [done|]. split.
    + intros child [->|Hin]%elem_of_cons; [|by apply Hclear1].
      intros q Hq. destruct (Hpr1 q) as [->|[? _]]; [by apply Hclear|done].
    + eapply pruned_trans; eapply pruned_weaken; [|exact Hpr| |exact Hpr1];
        simpl; intros q.
      * intros Hpre. exists c. split; [left|done].
      * intros (c' & Hin & Hpre). exists c'. split; [by right|done].
Qed.

(** On a tree without hidden entries, [RemoveRecursive(p)] leaves nothing
    at or below [p] (unless [p] is a regular file, which the function does
    not touch), and nothing else is lost. *)
Lemma RemoveRecursive_removes_all (fuel : nat) (p : Path) (d : Disk) (n : nat) :
  bounded (tree d) n → (n + 1 ≤ fuel + length p)%nat → (1 ≤ fuel)%nat →
  tidy (tree d) p → tree d !! p ≠ Some File →
  ∃ d', RemoveRecursive fuel p d = Some d' ∧
        cleared (tree d') p ∧
        pruned (λ q, p `prefix_of` q) (tree d) (tree d').
Proof.
  revert p d. induction fuel as [|fuel IH]; intros p d Hb Hfuel Hpos Htidy Hnf;
    [lia|].
  destruct (RemoveRecursive_runs (S fuel) p d n) as (d' & Hrun & _ & Hpr);
    [done|lia|lia|].
  exists d'. split; [done|]. split; [|done].
  destruct (tree d !! p) as [[]|] eqn:Hp; [done| |].
  2:{ intros q Hq. destruct (Hpr q) as [->|[? _]]; [|done].
      exact (tidy_absent (tree d) p Htidy Hp q Hq). }
  simpl in Hrun.
  destruct (dirs_loop_clears fuel p n (entryList (tree d) p Dir) d)
    as (d1 & Hdirs & Hclear1 & Hpr1); [|done| |].
  { intros child d0 Hin Hb0 Ht0 Hf0.
    apply elem_of_entryList in Hin as (_ & Hdir & _).
    assert (length (p ++ [child]) ≤ n)%nat as Hlen by (apply Hb; by eexists).
    rewrite length_app in Hlen. simpl in Hlen.
    apply IH; try done; [|lia]. rewrite length_app. simpl. lia. }
  { intros child Hin. apply elem_of_entryList in Hin as (_ & Hdir & _). split.
    - eapply tidy_below; [|done]. by apply prefix_app_r.
    - by rewrite Hdir. }
  rewrite Hdirs in Hrun.
  destruct (files_loop_clears p (entryList (tree d1) p File) d1)
    as (d2 & Hfiles & Hclear2 & Hpr2).
  { intros f Hf. apply elem_of_entryList in Hf as (_ & Hfile & _).
    by rewrite Hfile. }
  rewrite Hfiles in Hrun. injection Hrun as <-.
  assert (Hp1 : tree d1 !! p = Some Dir).
  { destruct (Hpr1 p) as [->|[_ (c & _ & Hpre)]]; [done|].
    by apply prefix_snoc_not_self in Hpre. }
  assert (Hp2 : tree d2 !! p = Some Dir).
  { destruct (Hpr2 p) as [->|[_ (f & _ & Heq)]]; [done|].
    apply (f_equal length) in Heq. rewrite length_app in Heq. simpl in Heq. lia. }
  assert (Hentries : ∀ name, tree d2 !! (p ++ [name]) = None).
  { intros name.
    destruct (tree d2 !! (p ++ [name])) as [k|] eqn:Hlook; [|done]. exfalso.
    assert (H1 : tree d1 !! (p ++ [name]) = Some k).
    { destruct (Hpr2 (p ++ [name])) as [Heq|[? _]]; congruence. }
    assert (H0 : tree d !! (p ++ [name]) = Some k).
    { destruct (Hpr1 (p ++ [name])) as [Heq|[? _]]; congruence. }
    destruct (Htidy p name) as [_ Hhid]; [done|by eexists|].
    destruct k.
    - rewrite Hclear2 in Hlook; [done|]. by apply elem_of_entryList.
    - rewrite Hclear1 in H1; [done| |done]. by apply elem_of_entryList. }
  assert (Hgone : tree (QDir_rmdir p d2) = delete p (tree d2)).
  { unfold QDir_rmdir. rewrite Hp2.
    by rewrite (proj2 (children_nil (tree d2) p) Hentries). }
  intros q [k ->]. rewrite Hgone. destruct k as [|name k].
  { rewrite app_nil_r. apply lookup_delete_eq. }
  rewrite lookup_delete_ne.
  2:{ intros Heq. apply (f_equal length) in Heq.
      rewrite length_app in Heq. simpl in Heq. lia. }
  destruct (tree d2 !! (p ++ name :: k)) as [kind|] eqn:Hlook; [|done]. exfalso.
  assert (H1 : tree d1 !! (p ++ name :: k) = Some kind).
  { destruct (Hpr2 (p ++ name :: k)) as [Heq|[? _]]; congruence. }
  assert (H0 : tree d !! (p ++ name :: k) = Some kind).
  { destruct (Hpr1 (p ++ name :: k)) as [Heq|[? _]]; congruence. }
  destruct (tidy_ancestor (tree d) p name k Htidy) as [Hhid Hdir];
    [by eexists|].
  destruct k as [|x k].
  { by rewrite Hentries in Hlook. }
  rewrite (Hclear1 name) in H1; [done| |].
  - apply elem_of_entryList. split_and!; [done| |done]. by apply Hdir.
  - exists (x :: k). by rewrite <- (assoc_L (++)).
Qed.

(** A directory of a tree without hidden entries is gone, with all it
    held, once [RemoveRecursive] has run on it. *)
Corollary RemoveRecursive_removes_tidy_tree (path : Path) (d : Disk)
    (extra : nat) :
  tidy (tree d) path → tree d !! path = Some Dir →
  ∃ d', RemoveRecursive (S (height (tree d) + extra)) path d = Some d' ∧
        (∀ q, path `prefix_of` q → tree d' !! q = None) ∧
        (∀ q, ¬ path `prefix_of` q → tree d' !! q = tree d !! q).
Proof.
  intros Htidy Hdir.
  destruct (RemoveRecursive_removes_all (S (height (tree d) + extra)) path d
              (height (tree d))) as (d' & Hrun & Hclear & Hpr);
    [apply height_bounded|lia|lia|done|by rewrite Hdir|].
  exists d'. split; [done|]. split; [done|].
  intros q Hq. by destruct (Hpr q) as [?|[_ ?]].
Qed.

(** The scenarios of the specification.  A directory that is empty is
    removed by the one [rmdir], with no call on any child. *)
Example RemoveRecursive_empty_directory :
  ∃ d',
    RemoveRecursive 1 ["tmp"]
      {| tree := {[ ["tmp"] := Dir ]}; journal := [] |} = Some d' ∧
    tree d' = ∅ ∧
    (λ s, (op s, target s, ok s)) <$> journal d' = [(OpRmdir, ["tmp"], true)].
Proof. eexists. split; [by vm_compute|]. by vm_compute. Qed.

(** A directory with a subdirectory that holds two files and an empty
    subdirectory: nothing of it is left, and nothing else is touched. *)
Example RemoveRecursive_scenario :
  ∃ d',
    RemoveRecursive 4 ["tmp"]
      {| tree := list_to_map
           [ (["home"], Dir); (["tmp"], Dir); (["tmp"; "sub"], Dir);
             (["tmp"; "sub"; "a.mp3"], File); (["tmp"; "sub"; "b.mp3"], File);
             (["tmp"; "sub"; "empty"], Dir) ];
         journal := [] |} = Some d' ∧
    tree d' = {[ ["home"] := Dir ]} ∧
    last ((λ s, (op s, target s, ok s)) <$> journal d') =
      Some (OpRmdir, ["tmp"], true).
Proof. eexists. split; [by vm_compute|]. by vm_compute. Qed.

(** * Further properties *)

(** ** Strings of digits *)

Lemma append_String (x : ascii) (a b : string) :
  String x a +:+ b = String x (a +:+ b).
Proof. done. Qed.

Lemma append_nil_l (s : string) : "" +:+ s = s.
Proof. done. Qed.

Lemma append_nil_r (s : string) : s +:+ "" = s.
Proof. induction s as [|c s IH]; [done|]. by rewrite append_String, IH. Qed.

Lemma append_assoc (a b c : string) : (a +:+ b) +:+ c = a +:+ b +:+ c.
Proof. induction a as [|x a IH]; [done|]. by rewrite !append_String, IH. Qed.

Lemma append_eq_nil (a b : string) : a +:+ b = "" → a = "" ∧ b = "".
Proof. destruct a; [done|]. by rewrite append_String. Qed.

Lemma append_eq_self (a b : string) : a = a +:+ b → b = "".
Proof.
  induction a as [|x a IH]; [done|]. rewrite append_String.
  intros [= Heq]. by apply IH.
Qed.

(** Unfolds the appends whose first string is a literal. *)
Ltac string_simpl :=
  repeat (rewrite ?append_String, ?append_nil_l in * ); simpl in *.

Lemma string_forall_append (P : ascii → bool) (a b : string) :
  string_forall P (a +:+ b) = string_forall P a && string_forall P b.
Proof.
  induction a as [|c a IH]; [done|]. rewrite append_String. simpl.
  rewrite IH. by rewrite andb_assoc.
Qed.

Lemma pretty_N_char_digit (x : N) : is_digit (pretty_N_char x) = true.
Proof. unfold pretty_N_char. by repeat case_match. Qed.

Lemma pretty_N_go_digits (x : N) (s : string) :
  string_forall is_digit s = true →
  string_forall is_digit (pretty_N_go x s) = true.
Proof.
  revert s. induction (N.lt_wf_0 x) as [x _ IH]; intros s Hs.
  destruct (decide (x = 0)%N) as [->|Hx]; [by rewrite pretty_N_go_0|].
  rewrite pretty_N_go_step by lia. apply IH.
  - apply N.div_lt; lia.
  - simpl. by rewrite pretty_N_char_digit.
Qed.

(** The decimal text of a number that is not negative has only digits. *)
Lemma pretty_digits (z : Z) :
  0 <= z → string_forall is_digit (pretty z) = true.
Proof.
  intros Hz. destruct z as [|p|p]; [done| |lia].
  unfold pretty, pretty_Z, pretty, pretty_positive, pretty, pretty_N.
  case_decide; [done|]. by apply pretty_N_go_digits.
Qed.

Lemma fmt_02d_digits (v : Z) :
  0 <= v → string_forall is_digit (fmt_02d v) = true.
Proof.
  intros Hv. unfold fmt_02d. case_match; [|by apply pretty_digits].
  rewrite string_forall_append, pretty_digits by done. done.
Qed.

(** Two texts that agree and start with digits up to a colon agree before
    the colon and after it. *)
Lemma split_at_colon (a a' b b' : string) :
  string_forall is_digit a = true → string_forall is_digit a' = true →
  a +:+ ":" +:+ b = a' +:+ ":" +:+ b' → a = a' ∧ b = b'.
Proof.
  revert a'. induction a as [|c a IH]; intros [|c' a'] Ha Ha' Heq;
    string_simpl.
  - by injection Heq.
  - injection Heq as <- _. done.
  - injection Heq as -> _. done.
  - injection Heq as -> Heq. apply andb_prop in Ha as [_ Ha].
    apply andb_prop in Ha' as [_ Ha'].
    destruct (IH a' Ha Ha' Heq) as [-> ->]. done.
Qed.

Lemma digits_no_colon (a b : string) :
  string_forall is_digit (a +:+ ":" +:+ b) = false.
Proof.
  rewrite string_forall_append. string_simpl. by rewrite andb_false_r.
Qed.

(** [fmt_02d] tells the numbers below 100 apart. *)
Lemma fmt_02d_inj (v v' : Z) :
  0 <= v < 100 → 0 <= v' < 100 → fmt_02d v = fmt_02d v' → v = v'.
Proof.
  intros Hv Hv'. unfold fmt_02d.
  destruct (Z.ltb_spec v 10), (Z.ltb_spec v' 10);
    (destruct (Z.leb_spec 0 v); [|lia]); (destruct (Z.leb_spec 0 v'); [|lia]);
    simpl; intros Heq.
  - by apply (inj (String.app "0")), (inj pretty) in Heq.
  - exfalso. assert (Hn : ∃ n : nat, v' = Z.of_nat n + 10 ∧ (n < 90)%nat).
    { exists (Z.to_nat (v' - 10)). lia. }
    destruct Hn as (n & -> & Hn). clear -Heq Hn.
    do 90 (destruct n as [|n]; [by vm_compute in Heq|]). lia.
  - exfalso. assert (Hn : ∃ n : nat, v = Z.of_nat n + 10 ∧ (n < 90)%nat).
    { exists (Z.to_nat (v - 10)). lia. }
    destruct Hn as (n & -> & Hn). clear -Heq Hn.
    do 90 (destruct n as [|n]; [by vm_compute in Heq|]). lia.
  - by apply (inj pretty) in Heq.
Qed.

(** ** [PrettyTime], continued *)

(** The three numbers [PrettyTime] prints for a number of seconds that is
    not negative. *)
Lemma PrettyTime_nonneg (s : Z) :
  0 <= s →
  PrettyTime s =
    if s / 3600 =? 0
    then fmt_d ((s / 60) `mod` 60) +:+ ":" +:+ fmt_02d (s `mod` 60)
    else fmt_d (s / 3600) +:+ ":" +:+ fmt_02d ((s / 60) `mod` 60) +:+ ":"
           +:+ fmt_02d (s `mod` 60).
Proof.
  intros Hs. unfold PrettyTime, qAbs. cbv zeta.
  destruct (Z.leb_spec 0 s); [|lia].
  assert (0 <= s / 60) by (apply Z.div_pos; lia).
  rewrite !Z.quot_div_nonneg, !Z.rem_mod_nonneg by lia.
  change (60 * 60) with 3600. by destruct (s / 3600 =? 0).
Qed.

(** [PrettyTime] of an [int] and of its negation, where that is an [int]
    too. *)
Lemma PrettyTime_negation_aux (s : Z) :
  is_int s → is_int (- s) → PrettyTime (- s) = PrettyTime s.
Proof.
  intros Hs Hn. unfold PrettyTime.
  by rewrite <- (qAbs_negation s Hs), (to_int_id (- s) Hn).
Qed.

(** X1. A duration of [h] hours, [m] minutes and [c] seconds prints as
    [h:mm:cc], and as [m:cc] when it is shorter than an hour; so does its
    negation. *)
Theorem PrettyTime_clock (h m c : Z) :
  0 <= h → 0 <= m < 60 → 0 <= c < 60 →
  h * 3600 + m * 60 + c <= INT_MAX →
  let text :=
    if h =? 0 then fmt_d m +:+ ":" +:+ fmt_02d c
    else fmt_d h +:+ ":" +:+ fmt_02d m +:+ ":" +:+ fmt_02d c in
  PrettyTime (h * 3600 + m * 60 + c) = text ∧
  PrettyTime (- (h * 3600 + m * 60 + c)) = text.
Proof.
  intros Hh Hm Hc Hmax text. set (s := h * 3600 + m * 60 + c).
  assert (Hint : is_int (- s)).
  { unfold is_int, INT_MIN, INT_MAX in *. lia. }
  assert (Hpos : PrettyTime s = text).
  { rewrite PrettyTime_nonneg by lia.
    assert (s / 3600 = h) as -> by (symmetry; apply (Z.div_unique _ _ _ (m * 60 + c)); lia).
    assert (s / 60 = h * 60 + m) as ->
      by (symmetry; apply (Z.div_unique _ _ _ c); lia).
    assert ((h * 60 + m) `mod` 60 = m) as ->
      by (symmetry; apply (Z.mod_unique _ _ h); lia).
    assert (s `mod` 60 = c) as ->
      by (symmetry; apply (Z.mod_unique _ _ (h * 60 + m)); lia).
    done. }
  split; [done|]. rewrite <- Hpos.
  apply PrettyTime_negation_aux; [|done].
  unfold is_int, INT_MIN, INT_MAX in *. lia.
Qed.

Lemma clock_parts (s : Z) :
  0 <= s →
  0 <= s / 3600 ∧ 0 <= (s / 60) `mod` 60 < 60 ∧ 0 <= s `mod` 60 < 60 ∧
  s = s / 3600 * 3600 + (s / 60) `mod` 60 * 60 + s `mod` 60.
Proof.
  intros Hs.
  pose proof (Z.mod_pos_bound s 60) as Hc.
  pose proof (Z.mod_pos_bound (s / 60) 60) as Hm.
  pose proof (Z.div_mod s 60) as H1.
  pose proof (Z.div_mod (s / 60) 60) as H2.
  rewrite Z.div_div in H2 by lia. change (60 * 60) with 3600 in H2.
  assert (0 <= s / 3600) by (apply Z.div_pos; lia).
  lia.
Qed.

(** Among the numbers of seconds that are not negative, different ones
    print differently. *)
Lemma PrettyTime_inj_nonneg (s s' : Z) :
  0 <= s → 0 <= s' → PrettyTime s = PrettyTime s' → s = s'.
Proof.
  intros Hs Hs'. rewrite !PrettyTime_nonneg by done.
  destruct (clock_parts s Hs) as (Hh & Hm & Hc & Heq).
  destruct (clock_parts s' Hs') as (Hh' & Hm' & Hc' & Heq').
  set (h := s / 3600) in *. set (m := (s / 60) `mod` 60) in *.
  set (c := s `mod` 60) in *. set (h' := s' / 3600) in *.
  set (m' := (s' / 60) `mod` 60) in *. set (c' := s' `mod` 60) in *.
  unfold fmt_d.
  destruct (Z.eqb_spec h 0) as [Hz|Hnz], (Z.eqb_spec h' 0) as [Hz'|Hnz'];
    intros Htext.
  - apply split_at_colon in Htext as [Ha Hb]; [|apply pretty_digits; lia..].
    apply (inj pretty) in Ha. apply fmt_02d_inj in Hb; lia.
  - apply split_at_colon in Htext as [_ Hb]; [|apply pretty_digits; lia..].
    apply (f_equal (string_forall is_digit)) in Hb.
    rewrite digits_no_colon, fmt_02d_digits in Hb by lia. done.
  - apply split_at_colon in Htext as [_ Hb]; [|apply pretty_digits; lia..].
    apply (f_equal (string_forall is_digit)) in Hb.
    rewrite digits_no_colon, fmt_02d_digits in Hb by lia. done.
  - apply split_at_colon in Htext as [Ha Hb]; [|apply pretty_digits; lia..].
    apply (inj pretty) in Ha.
    apply split_at_colon in Hb as [Hb Hd]; [|apply fmt_02d_digits; lia..].
    apply fmt_02d_inj in Hb, Hd; lia.
Qed.

Lemma PrettyTime_abs (s : Z) :
  is_int s → s ≠ INT_MIN → PrettyTime s = PrettyTime (Z.abs s).
Proof.
  intros Hs Hmin.
  assert (Hn : is_int (- s)) by (unfold is_int, INT_MIN, INT_MAX in *; lia).
  destruct (Z.abs_spec s) as [[_ ->]|[_ ->]]; [done|].
  symmetry. by apply PrettyTime_negation_aux.
Qed.

(** X2. Two numbers of seconds, [INT_MIN] apart, print the same text
    exactly when they are equal or one is the negation of the other. *)
Theorem PrettyTime_same_text (s s' : Z) :
  is_int s → is_int s' → s ≠ INT_MIN → s' ≠ INT_MIN →
  PrettyTime s = PrettyTime s' ↔ Z.abs s = Z.abs s'.
Proof.
  intros Hs Hs' Hmin Hmin'. rewrite (PrettyTime_abs s), (PrettyTime_abs s') by done.
  split; [|by intros ->]. apply PrettyTime_inj_nonneg; lia.
Qed.

Lemma PrettyTime_clock_witness :
  PrettyTime (1 * 3600 + 2 * 60 + 3) = "1:02:03" ∧
  PrettyTime (- (1 * 3600 + 2 * 60 + 3)) = "1:02:03".
Proof.
  apply (PrettyTime_clock 1 2 3); unfold INT_MAX; lia.
Defined.

Lemma PrettyTime_same_text_witness :
  PrettyTime 75 = PrettyTime (-75) ↔ Z.abs 75 = Z.abs (-75).
Proof.
  apply (PrettyTime_same_text 75 (-75));
    unfold is_int, INT_MIN, INT_MAX; lia.
Defined.

(** ** [WordyTime] *)

Lemma to_quint64_id (z : Z) : 0 <= z < 2 ^ 64 → to_quint64 z = z.
Proof. intros Hz. unfold to_quint64. by apply Z.mod_small. Qed.

(** The day count and the argument of [PrettyTime] in [WordyTime]: no
    conversion loses anything. *)
Lemma WordyTime_split (s : Z) :
  0 <= s < 2 ^ 64 →
  s ÷ (60 * 60 * 24) = s / 86400 ∧
  to_int (to_quint64 (s - to_quint64 (s / 86400 * 60 * 60 * 24))) =
    s `mod` 86400.
Proof.
  intros Hs. change (60 * 60 * 24) with 86400.
  rewrite Z.quot_div_nonneg by lia. split; [done|].
  pose proof (Z.div_mod s 86400) as Hdm.
  pose proof (Z.mod_pos_bound s 86400) as Hm.
  assert (0 <= s / 86400) by (apply Z.div_pos; lia).
  replace (s / 86400 * 60 * 60 * 24) with (86400 * (s / 86400)) by lia.
  rewrite (to_quint64_id (86400 * (s / 86400))) by lia.
  replace (s - 86400 * (s / 86400)) with (s `mod` 86400) by lia.
  rewrite to_quint64_id by lia. apply to_int_id.
  unfold is_int, INT_MIN, INT_MAX. lia.
Qed.

(** X3. [WordyTime] of less than a day is [PrettyTime], whatever the
    translations.  Without translations, [WordyTime] of [d] days and a
    rest is ["1 day"] or ["d days"], a space, and [PrettyTime] of the rest,
    which is less than a day. *)
Theorem WordyTime_days (s : Z) :
  0 <= s < 2 ^ 64 →
  (∀ tr, s < 86400 → WordyTime tr s = PrettyTime s) ∧
  WordyTime (λ text, text) s =
    (if s / 86400 =? 0 then ""
     else if s / 86400 =? 1 then "1 day "
     else pretty (s / 86400) +:+ " days ")
    +:+ PrettyTime (s `mod` 86400).
Proof.
  intros Hs. destruct (WordyTime_split s Hs) as [Hdays Hrest].
  split.
  - intros tr Hday. unfold WordyTime. cbv zeta. rewrite Hdays.
    assert (s / 86400 = 0) as Hz by (apply Z.div_small; lia).
    rewrite Hz in *. simpl negb. cbv iota. rewrite app_nil_l.
    rewrite Hrest, Z.mod_small by lia. done.
  - unfold WordyTime. cbv zeta. rewrite Hdays, Hrest.
    destruct (Z.eqb_spec (s / 86400) 0) as [Hz|Hnz]; simpl negb; cbv iota.
    { done. }
    destruct (Z.eqb_spec (s / 86400) 1) as [H1|Hn1]; [done|].
    change (arg "%1 days" (pretty (s / 86400)))
      with (pretty (s / 86400) +:+ " days").
    simpl app. unfold join. by rewrite !append_assoc.
Qed.

Lemma WordyTime_days_witness :
  WordyTime (λ text, text) 200000 = "2 days 7:33:20".
Proof.
  assert (H : 0 <= 200000 < 2 ^ 64) by lia.
  exact (proj2 (WordyTime_days 200000 H)).
Defined.

(** ** [PrettySize] *)

(** X4. [PrettySize] is empty for zero bytes only; up to 1000 bytes it is
    the number followed by [" bytes"], and above, the unit is KB up to
    1000 * 1000, MB up to 1000 * 1000 * 1000, and GB beyond, each bound
    included. *)
Theorem PrettySize_units (float_1f : Z → Z → string) (bytes : Z) :
  0 <= bytes →
  (PrettySize float_1f bytes = "" ↔ bytes = 0) ∧
  (0 < bytes <= 1000 → PrettySize float_1f bytes = pretty bytes +:+ " bytes") ∧
  (1000 < bytes <= 1000000 →
   PrettySize float_1f bytes = float_1f bytes 1000 +:+ " KB") ∧
  (1000000 < bytes <= 1000000000 →
   PrettySize float_1f bytes = float_1f bytes 1000000 +:+ " MB") ∧
  (1000000000 < bytes →
   PrettySize float_1f bytes = float_1f bytes 1000000000 +:+ " GB").
Proof.
  intros Hb. unfold PrettySize.
  change (1000 * 1000 * 1000) with 1000000000.
  change (1000 * 1000) with 1000000.
  destruct (Z.ltb_spec 0 bytes) as [Hpos|Hzero].
  2:{ split; [split; [lia|done]|]. split_and!; lia. }
  destruct (Z.leb_spec bytes 1000), (Z.leb_spec bytes 1000000),
    (Z.leb_spec bytes 1000000000);
    (split; [split; [intros [_ [=]]%append_eq_nil|lia]|]);
    split_and!; (done || lia).
Qed.

Lemma PrettySize_units_witness :
  PrettySize (λ _ _, "1.0") 1 = "1 bytes" ∧
  PrettySize (λ _ _, "1.0") 1000 = "1000 bytes" ∧
  PrettySize (λ _ _, "1.0") 1001 = "1.0 KB".
Proof.
  split_and!.
  - apply (PrettySize_units (λ _ _, "1.0") 1); lia.
  - apply (PrettySize_units (λ _ _, "1.0") 1000); lia.
  - apply (PrettySize_units (λ _ _, "1.0") 1001); lia.
Defined.

(** ** [QString::arg] on text without markers *)

Lemma pieces_no_percent (c : ascii) (s : string) :
  Ascii.eqb c percent = false → pieces (String c s) = Text c :: pieces s.
Proof. intros Hc. simpl. by rewrite Hc. Qed.

Lemma marker_numbers_text (u s : string) :
  no_percent u = true →
  marker_numbers (pieces (u +:+ s)) = marker_numbers (pieces s).
Proof.
  induction u as [|c u IH]; [done|]. intros Hu.
  apply andb_prop in Hu as [Hc Hu]. apply negb_true_iff in Hc.
  rewrite append_String, pieces_no_percent by done. by apply IH.
Qed.

Lemma substitute_text (value : nat → option string) (u s : string) :
  no_percent u = true →
  substitute value (pieces (u +:+ s)) = u +:+ substitute value (pieces s).
Proof.
  induction u as [|c u IH]; [done|]. intros Hu.
  apply andb_prop in Hu as [Hc Hu]. apply negb_true_iff in Hc.
  rewrite !append_String, pieces_no_percent by done. simpl.
  by rewrite IH.
Qed.

(** Text without a percent sign in front of a format passes through
    [arg]. *)
Lemma arg_text (u s a : string) :
  no_percent u = true → arg (u +:+ s) a = u +:+ arg s a.
Proof.
  intros Hu. unfold arg. rewrite marker_numbers_text by done.
  destruct (lowest (marker_numbers (pieces s))); [|done].
  by apply substitute_text.
Qed.

Lemma string_forall_impl (P Q : ascii → bool) (s : string) :
  (∀ c, P c = true → Q c = true) →
  string_forall P s = true → string_forall Q s = true.
Proof.
  intros HPQ. induction s as [|c s IH]; [done|]. simpl.
  intros [Hc Hs]%andb_prop. by rewrite HPQ, IH.
Qed.

Lemma is_digit_not_percent (c : ascii) :
  is_digit c = true → negb (Ascii.eqb c percent) = true.
Proof.
  destruct (Ascii.eqb_spec c percent) as [->|]; [by vm_compute|done].
Qed.

(** The decimal text of an integer has no percent sign. *)
Lemma pretty_no_percent (z : Z) : no_percent (pretty z) = true.
Proof.
  unfold no_percent. destruct z as [|p|p]; [done| |].
  - apply (string_forall_impl is_digit); [apply is_digit_not_percent|].
    by apply (pretty_digits (Z.pos p)).
  - change (pretty (Z.neg p)) with ("-" +:+ pretty (Z.pos p)).
    rewrite string_forall_append. simpl.
    apply (string_forall_impl is_digit); [apply is_digit_not_percent|].
    by apply (pretty_digits (Z.pos p)).
Qed.

Lemma no_percent_append (a b : string) :
  no_percent (a +:+ b) = no_percent a && no_percent b.
Proof. apply string_forall_append. Qed.

(** ** [ColorToRgba] *)

(** X5. [ColorToRgba] is the text [rgba(r, g, b, a)] with the four
    components in decimal, in this order. *)
Theorem ColorToRgba_text (c : QColor) :
  ColorToRgba c =
    "rgba(" +:+ pretty (red c) +:+ ", " +:+ pretty (green c) +:+ ", "
      +:+ pretty (blue c) +:+ ", " +:+ pretty (alpha c) +:+ ")".
Proof.
  unfold ColorToRgba.
  set (R := pretty (red c)). set (G := pretty (green c)).
  set (B := pretty (blue c)). set (A := pretty (alpha c)).
  change (arg "rgba(%1, %2, %3, %4)" R)
    with ("rgba(" +:+ R +:+ ", %2, %3, %4)").
  rewrite <- (append_assoc "rgba(" R), arg_text
    by (rewrite no_percent_append; unfold R; by rewrite pretty_no_percent).
  change (arg ", %2, %3, %4)" G) with (", " +:+ G +:+ ", %3, %4)").
  rewrite <- (append_assoc _ ", " (G +:+ _)), <- (append_assoc _ G), arg_text
    by (rewrite !no_percent_append; unfold R, G;
        by rewrite !pretty_no_percent).
  change (arg ", %3, %4)" B) with (", " +:+ B +:+ ", %4)").
  rewrite <- (append_assoc _ ", " (B +:+ _)), <- (append_assoc _ B), arg_text
    by (rewrite !no_percent_append; unfold R, G, B;
        by rewrite !pretty_no_percent).
  change (arg ", %4)" A) with (", " +:+ A +:+ ")").
  by rewrite !append_assoc.
Qed.

(** ** [GetConfigPath] *)

(** The root of the configuration on a system other than Mac OS X, also
    when the home path or the name of the organisation holds a place
    marker. *)
Lemma GetConfigPath_root (app : Application) :
  Q_OS_DARWIN app = false →
  GetConfigPath app Path_Root =
    homePath app +:+ "/.config/" +:+ organizationName app.
Proof.
  intros Hos. unfold GetConfigPath. rewrite Hos.
  change (arg2 "%1/.config/%2" (homePath app) (organizationName app))
    with (homePath app +:+ "/.config/" +:+ organizationName app +:+ "").
  by rewrite append_nil_r.
Qed.

(** The registry file name, whatever the version text holds. *)
Lemma gst_registry_name (version : string) :
  arg "/gst-registry-%1-bin" version = "/gst-registry-" +:+ version +:+ "-bin".
Proof. done. Qed.

(** X6. The configuration root, the album cover directory, the network
    cache and the GStreamer registry are four different paths, and the
    last three lie below the first. *)
Theorem GetConfigPath_apart (app : Application) (c1 c2 : ConfigPath) :
  c1 ≠ Path_DefaultMusicLibrary → c2 ≠ Path_DefaultMusicLibrary →
  (GetConfigPath app c1 = GetConfigPath app c2 → c1 = c2) ∧
  ∃ rest, GetConfigPath app c1 = GetConfigPath app Path_Root +:+ rest ∧
          (rest = "" ↔ c1 = Path_Root).
Proof.
  intros H1 H2. unfold GetConfigPath.
  set (root := if Q_OS_DARWIN app then _ else _).
  rewrite gst_registry_name. split.
  - destruct c1, c2; try done; intros Heq;
      try (apply append_eq_self in Heq; by string_simpl);
      try (symmetry in Heq; apply append_eq_self in Heq; by string_simpl);
      apply (inj (String.app root)) in Heq; by string_simpl.
  - destruct c1; try done.
    + exists "". by rewrite append_nil_r.
    + eexists. split; [done|]. split; [by string_simpl|done].
    + eexists. split; [done|]. split; [by string_simpl|done].
    + eexists. split; [done|]. split; [by string_simpl|done].
Qed.

Lemma GetConfigPath_apart_witness :
  GetConfigPath linux_app Path_GstreamerRegistry =
    "/home/%2/.config/Clementine/gst-registry-0.7-bin" ∧
  (GetConfigPath linux_app Path_AlbumCovers =
   GetConfigPath linux_app Path_NetworkCache →
   Path_AlbumCovers = Path_NetworkCache).
Proof.
  split; [reflexivity|].
  exact (proj1 (GetConfigPath_apart linux_app Path_AlbumCovers
                  Path_NetworkCache ltac:(discriminate) ltac:(discriminate))).
Defined.

(** ** [Copy], continued *)

(** X8. Devices that open, never fail and never stall: [Copy] returns true
    and the destination holds the bytes of the source, in however many
    pieces the reads and the writes went through. *)
Theorem Copy_complete (uninit : nat → byte) (fuel : nat) (w : World) :
  openable (source w) = true → openable (destination w) = true →
  Fail ∉ replies (source w) → Fail ∉ replies (destination w) →
  Grant 0 ∉ replies (source w) → Grant 0 ∉ replies (destination w) →
  (length (contents (source w)) < fuel)%nat →
  ∃ w', Copy uninit fuel w = (Return true, w') ∧
        contents (destination w') = contents (source w).
Proof.
  intros Hs Hd Hfs Hfd Hzs Hzd Hfuel.
  destruct (Copy_outcome uninit fuel w Hfuel) as (ret & w' & Hrun & Hfalse & Htrue).
  destruct ret.
  - exists w'. split; [done|]. by apply Htrue.
  - destruct Hfalse as [?|[?|[?|?]]]; [done|congruence..|done|done].
Qed.

(** X9. With more fuel than the source has bytes [Copy] returns, and it
    returns false only if a device did not open or the script of a device
    holds a failure. *)
Theorem Copy_failure_cause (uninit : nat → byte) (fuel : nat) (w : World) :
  (length (contents (source w)) < fuel)%nat →
  ∃ ret w',
    Copy uninit fuel w = (Return ret, w') ∧
    (ret = false →
     openable (source w) = false ∨ openable (destination w) = false ∨
     Fail ∈ replies (source w) ∨ Fail ∈ replies (destination w)).
Proof.
  intros Hfuel.
  destruct (Copy_outcome uninit fuel w Hfuel) as (ret & w' & Hrun & Hfalse & _).
  by exists ret, w'.
Qed.

(** X10. When [Copy] returns true and no transfer of either device was
    granted zero bytes, the destination holds the bytes of the source. *)
Theorem Copy_success_exact (uninit : nat → byte) (fuel : nat) (w w' : World) :
  (length (contents (source w)) < fuel)%nat →
  Grant 0 ∉ replies (source w) → Grant 0 ∉ replies (destination w) →
  Copy uninit fuel w = (Return true, w') →
  contents (destination w') = contents (source w).
Proof.
  intros Hfuel Hzs Hzd Hrun.
  destruct (Copy_outcome uninit fuel w Hfuel) as (ret & w2 & Hrun2 & _ & Htrue).
  rewrite Hrun in Hrun2. injection Hrun2 as <- <-. by apply Htrue.
Qed.

(** The read loop leaves the contents of the source as they are. *)
Lemma read_loop_contents (fuel : nat) (bytes : Z) (data : list byte) (pos : Z)
    (w : World) :
  contents (source (read_loop fuel bytes data pos w).2) = contents (source w).
Proof.
  revert data pos w. induction fuel as [|fuel IH]; intros data pos w; [done|].
  simpl. unfold bind, source_read.
  pose proof (read_frame (bytes - pos) (source w)) as (_ & _ & Hcont).
  destruct (read (bytes - pos) (source w)) as [[ret chunk] d'] eqn:Hread.
  simpl in *. destruct (ret =? -1); [done|].
  destruct ((0 <? ret) && negb (pos + ret =? bytes)); [|done].
  by rewrite IH.
Qed.

(** X11. [Copy] never changes the contents of the source, whatever
    happens. *)
Theorem Copy_keeps_source (uninit : nat → byte) (fuel : nat) (w : World) :
  contents (source (Copy uninit fuel w).2) = contents (source w).
Proof.
  unfold Copy, bind, source_open, open.
  destruct (openable (source w)) eqn:Hos; simpl; [|done].
  unfold destination_open, open; simpl.
  destruct (openable (destination w)) eqn:Hod; simpl; [|done].
  unfold source_size, size; simpl.
  match goal with
  | |- context [read_loop ?f ?b ?d ?p ?w0] =>
      pose proof (read_loop_contents f b d p w0) as Hc;
      destruct (read_loop f b d p w0) as [[data| |] w1]
  end; simpl in *; try done.
  match goal with
  | |- context [write_loop ?f ?b ?d ?p ?w0] =>
      pose proof (write_loop_frame f b d p w0) as [Hs' _];
      destruct (write_loop f b d p w0) as [[[]| |] w2]
  end; simpl in *; by rewrite Hs'.
Qed.

(** X12. When the destination does not open, [Copy] returns false with the
    source open and not read (no size was asked for, no byte read), and
    the contents of the destination as they were. *)
Theorem Copy_destination_open_fails (uninit : nat → byte) (fuel : nat)
    (w : World) :
  openable (source w) = true → openable (destination w) = false →
  ∃ w',
    Copy uninit fuel w = (Return false, w') ∧
    openMode (source w') = ReadOnly ∧
    calls (source w') = calls (source w) ++ [CallOpen ReadOnly true] ∧
    contents (destination w') = contents (destination w) ∧
    calls (destination w') =
      calls (destination w) ++ [CallOpen WriteOnly false].
Proof.
  intros Hs Hd. eexists. unfold Copy, bind, source_open, open. rewrite Hs.
  simpl. unfold destination_open, open. simpl. rewrite Hd. simpl.
  by split_and!.
Qed.

(** How a [Copy] on devices that open goes: a read fails, and the
    destination is as [open] left it; or the reads end with the first
    [pos] bytes of the source in the buffer, and the destination receives
    the first [n] bytes of the buffer until the writes end or one fails. *)
Lemma Copy_run (uninit : nat → byte) (fuel : nat) (w : World) :
  openable (source w) = true → openable (destination w) = true →
  (length (contents (source w)) < fuel)%nat →
  let B := contents (source w) in
  let junk := new_char uninit (Z.of_nat (length B)) in
  (∃ w', Copy uninit fuel w = (Return false, w') ∧
         destination w' = destination (after_open w) ∧
         Fail ∈ replies (source w)) ∨
  (∃ ret w' pos n,
     Copy uninit fuel w = (Return ret, w') ∧
     0 <= pos <= Z.of_nat (length B) ∧
     (Grant 0 ∉ replies (source w) → pos = Z.of_nat (length B)) ∧
     contents (destination w') = take n (filled B junk pos) ∧
     (ret = false → Fail ∈ replies (destination w))).
Proof.
  intros Hs Hd Hfuel B junk.
  pose proof (Copy_after_open uninit fuel w Hs Hd) as Hcopy.
  simpl in Hcopy. fold B in Hcopy. fold junk in Hcopy. unfold bind in Hcopy.
  destruct (after_open_facts w Hs Hd)
    as (Hc & Hr & Hp & Hrep & Hw & Hdc & Hdrep & _).
  assert (Hjunk : length junk = length B).
  { unfold junk. rewrite new_char_length. lia. }
  destruct (read_loop_spec B junk fuel 0 (after_open w))
    as (fl & w1 & Hread & Hdst & Hfl); try (done || unfold B; lia).
  rewrite filled_zero in Hread. rewrite Hread in Hcopy.
  destruct fl as [data|ret|]; [|destruct Hfl as [-> Hfail]|done].
  2:{ left. exists w1. rewrite Hrep in Hfail. by split_and!. }
  destruct Hfl as (pos' & Hpos' & -> & Hall). right.
  pose proof (write_loop_spec (filled B junk pos') fuel 0 w1) as Hws.
  rewrite filled_length in Hws by done.
  destruct Hws as (fl & w2 & n & Hwrite & _ & Hn & Hcont & _ & Hfl);
    try (done || unfold B; lia).
  { by rewrite Hdst. }
  { by rewrite Hdst, Hdc, take_0. }
  rewrite Hwrite in Hcopy. rewrite Hrep in Hall.
  destruct fl as [[]|ret|]; [|destruct Hfl as [-> Hfail]|done].
  - exists true, w2, pos', (Z.to_nat n).
    split; [exact Hcopy|]. split; [done|]. split; [done|]. by split.
  - exists false, w2, pos', (Z.to_nat n). rewrite Hdst, Hdrep in Hfail.
    split; [exact Hcopy|]. split; [done|]. split; [done|]. by split.
Qed.

(** X13. When the source never stalls, the destination holds a first part
    of the source after [Copy], whether it returned true or false. *)
Theorem Copy_destination_prefix (uninit : nat → byte) (fuel : nat) (w : World) :
  openable (source w) = true → openable (destination w) = true →
  Grant 0 ∉ replies (source w) →
  (length (contents (source w)) < fuel)%nat →
  contents (destination (Copy uninit fuel w).2) `prefix_of` contents (source w).
Proof.
  intros Hs Hd Hzero Hfuel.
  destruct (after_open_facts w Hs Hd) as (_ & _ & _ & _ & _ & Hdc & _).
  destruct (Copy_run uninit fuel w Hs Hd Hfuel)
    as [(w' & -> & Hdst & _)|(ret & w' & pos & n & -> & _ & Hall & Hcont & _)];
    simpl.
  - rewrite Hdst, Hdc. apply prefix_nil.
  - rewrite Hcont, (Hall Hzero), filled_all by (rewrite new_char_length; lia).
    apply prefix_take.
Qed.

(** X14. When [Copy] returns false although both devices opened and the
    destination would not have failed, a read failed; the destination was
    emptied by [open] and nothing was written to it: what it held before
    is lost. *)
Theorem Copy_read_failure (uninit : nat → byte) (fuel : nat) (w w' : World) :
  openable (source w) = true → openable (destination w) = true →
  Fail ∉ replies (destination w) →
  (length (contents (source w)) < fuel)%nat →
  Copy uninit fuel w = (Return false, w') →
  Fail ∈ replies (source w) ∧
  contents (destination w') = [] ∧
  calls (destination w') = calls (destination w) ++ [CallOpen WriteOnly true].
Proof.
  intros Hs Hd Hnofail Hfuel Hrun.
  destruct (after_open_facts w Hs Hd) as (_ & _ & _ & _ & _ & Hdc & _ & Hcalls).
  destruct (Copy_run uninit fuel w Hs Hd Hfuel)
    as [(w1 & Hrun1 & Hdst & Hfail)|(ret & w1 & pos & n & Hrun1 & _ & _ & _ & Hcause)];
    rewrite Hrun in Hrun1; injection Hrun1 as <-; try subst ret.
  - by rewrite Hdst.
  - exfalso. by apply Hnofail, Hcause.
Qed.

(** Decides that a reply does not occur in a script that is written out. *)
Ltac not_in_script :=
  let H := fresh in
  intros H;
  repeat (apply elem_of_cons in H as [H|H]; [discriminate H|]);
  exact (not_elem_of_nil _ H).

Lemma Copy_complete_witness :
  ∃ w', Copy zeros 4 slow_world = (Return true, w') ∧
        contents (destination w') = abc.
Proof.
  apply (Copy_complete zeros 4 slow_world);
    try reflexivity; try not_in_script. simpl. lia.
Defined.

Lemma Copy_failure_cause_witness :
  ∃ ret w',
    Copy zeros 4 failing_world = (Return ret, w') ∧
    (ret = false →
     openable (source failing_world) = false ∨
     openable (destination failing_world) = false ∨
     Fail ∈ replies (source failing_world) ∨
     Fail ∈ replies (destination failing_world)).
Proof. apply (Copy_failure_cause zeros 4 failing_world). simpl. lia. Defined.

Lemma Copy_success_exact_witness :
  contents (destination (Copy zeros 4 slow_world).2) = abc.
Proof.
  apply (Copy_success_exact zeros 4 slow_world (Copy zeros 4 slow_world).2);
    try not_in_script; [simpl; lia|reflexivity].
Defined.

Lemma Copy_destination_open_fails_witness :
  ∃ w',
    Copy zeros 4 locked_world = (Return false, w') ∧
    openMode (source w') = ReadOnly ∧
    calls (source w') = [CallOpen ReadOnly true] ∧
    contents (destination w') = [x7a] ∧
    calls (destination w') = [CallOpen WriteOnly false].
Proof.
  exact (Copy_destination_open_fails zeros 4 locked_world eq_refl eq_refl).
Defined.

Lemma Copy_destination_prefix_witness :
  contents (destination (Copy zeros 4 failing_world).2) `prefix_of` abc.
Proof.
  apply (Copy_destination_prefix zeros 4 failing_world);
    try reflexivity; try not_in_script. simpl. lia.
Defined.

Lemma Copy_read_failure_witness :
  Fail ∈ replies (source failing_world) ∧
  contents (destination (Copy zeros 4 failing_world).2) = [] ∧
  calls (destination (Copy zeros 4 failing_world).2) =
    [CallOpen WriteOnly true].
Proof.
  apply (Copy_read_failure zeros 4 failing_world (Copy zeros 4 failing_world).2);
    try reflexivity; try not_in_script. simpl. lia.
Defined.

(** ** [RemoveRecursive], continued *)

(** X15. [RemoveRecursive] only deletes, and only at or below [path]:
    every other path keeps what it had, and what is found afterwards was
    there before. *)
Theorem RemoveRecursive_only_below (path : Path) (d : Disk) (extra : nat) :
  ∃ d',
    RemoveRecursive (S (height (tree d) + extra)) path d = Some d' ∧
    (∀ q, ¬ path `prefix_of` q → tree d' !! q = tree d !! q) ∧
    (∀ q k, tree d' !! q = Some k → tree d !! q = Some k).
Proof.
  destruct (RemoveRecursive_runs (S (height (tree d) + extra)) path d
              (height (tree d))) as (d' & Hrun & _ & Hpr);
    [apply height_bounded|lia|lia|].
  exists d'. split; [done|]. split.
  - intros q Hq. by destruct (Hpr q) as [?|[_ ?]].
  - intros q k Hk. destruct (Hpr q) as [<-|[Hnone _]]; congruence.
Qed.

(** X16. On a path that is not a directory (a regular file, or nothing)
    [RemoveRecursive] changes nothing: it makes one call, the [rmdir],
    which fails. *)
Theorem RemoveRecursive_not_a_directory (fuel : nat) (path : Path) (d : Disk) :
  tree d !! path ≠ Some Dir →
  ∃ step,
    RemoveRecursive (S fuel) path d =
      Some {| tree := tree d; journal := journal d ++ [step] |} ∧
    op step = OpRmdir ∧ target step = path ∧ ok step = false.
Proof.
  intros Hnd. simpl. unfold entryList, QDir_rmdir.
  destruct (tree d !! path) as [[]|] eqn:Hp; [|done|];
    simpl; rewrite Hp; simpl; rewrite ?Hp; by eexists.
Qed.

Lemma RemoveRecursive_not_a_directory_witness :
  ∃ step,
    RemoveRecursive 1 ["tmp"; "a"] {| tree := small_tree; journal := [] |} =
      Some {| tree := small_tree; journal := [step] |} ∧
    op step = OpRmdir ∧ target step = ["tmp"; "a"] ∧ ok step = false.
Proof.
  apply (RemoveRecursive_not_a_directory 0 ["tmp"; "a"]
           {| tree := small_tree; journal := [] |}).
  by vm_compute.
Defined.

(** A loop changes the tree as its body does. *)
Lemma foreach_pruned {A} (P : Path → Prop) (body : A → Disk → option Disk)
    (l : list A) (d d1 : Disk) :
  (∀ a d0 d0', a ∈ l → body a d0 = Some d0' → pruned P (tree d0) (tree d0')) →
  foreach l body d = Some d1 → pruned P (tree d) (tree d1).
Proof.
  revert d. induction l as [|a l IH]; intros d Hbody; simpl.
  - intros [= <-]. apply pruned_refl.
  - destruct (body a d) as [d0|] eqn:Ha; [|done]. intros Hloop.
    eapply pruned_trans; [eapply Hbody; [left|done]|].
    apply IH; [|done]. intros a' d2 d2' Hin. apply Hbody. by right.
Qed.

(** What [RemoveRecursive(p)] deletes is reached from [p] through names
    that are not hidden. *)
Lemma RemoveRecursive_prunes_visible (fuel : nat) (p : Path) (d d' : Disk) :
  RemoveRecursive fuel p d = Some d' →
  pruned (visible_below p) (tree d) (tree d').
Proof.
  revert p d d'. induction fuel as [|fuel IH]; intros p d d'; [done|]. simpl.
  destruct (foreach (entryList (tree d) p Dir) _ d) as [d1|] eqn:Hdirs; [|done].
  destruct (foreach (entryList (tree d1) p File) _ d1) as [d2|] eqn:Hfiles;
    [|done].
  intros [= <-].
  destruct (QDir_rmdir_effect p d2) as (_ & _ & _ & _ & _ & _ & _ & Hpr3).
  eapply pruned_trans; [|eapply pruned_trans].
  - eapply foreach_pruned; [|exact Hdirs]. simpl.
    intros c d0 d0' Hc Hcall. apply elem_of_entryList in Hc as (_ & _ & Hvis).
    eapply pruned_weaken; [|by apply IH]. simpl.
    intros q (k & -> & Hk). exists (c :: k).
    split; [by rewrite <- (assoc_L (++))|by constructor].
  - eapply foreach_pruned; [|exact Hfiles]. simpl.
    intros c d0 d0' Hc [= <-]. apply elem_of_entryList in Hc as (_ & _ & Hvis).
    destruct (QFile_remove_effect (p ++ [c]) d0) as (_ & _ & _ & _ & _ & _ & Hpr).
    eapply pruned_weaken; [|exact Hpr]. simpl.
    intros q ->. exists [c]. split; [done|by repeat constructor].
  - eapply pruned_weaken; [|exact Hpr3]. simpl.
    intros q ->. exists []. split; [by rewrite app_nil_r|constructor].
Qed.

(** X17. [RemoveRecursive] deletes nothing that has a hidden name on the
    way down from [path]: neither a hidden entry nor anything inside a
    hidden directory. *)
Theorem RemoveRecursive_spares_hidden (path : Path) (d : Disk) (extra : nat) :
  ∃ d',
    RemoveRecursive (S (height (tree d) + extra)) path d = Some d' ∧
    ∀ k, Exists (λ name, isHidden name = true) k →
         tree d' !! (path ++ k) = tree d !! (path ++ k).
Proof.
  destruct (RemoveRecursive_runs (S (height (tree d) + extra)) path d
              (height (tree d))) as (d' & Hrun & _);
    [apply height_bounded|lia|lia|].
  exists d'. split; [done|]. intros k Hk.
  destruct (RemoveRecursive_prunes_visible _ _ _ _ Hrun (path ++ k))
    as [?|[_ (k' & Heq & Hvis)]]; [done|].
  apply app_inv_head in Heq as <-. exfalso.
  apply Exists_exists in Hk as (name & Hin & Hhid).
  rewrite Forall_forall in Hvis. specialize (Hvis name Hin). congruence.
Qed.

Lemma small_tree_tidy : tidy small_tree ["tmp"].
Proof.
  intros q name Hpre [k Hk]. apply elem_of_map_to_list in Hk.
  let l := eval vm_compute in (map_to_list small_tree) in
  change (map_to_list small_tree) with l in Hk.
  repeat (apply elem_of_cons in Hk as [Hk|Hk]);
    [| |by apply not_elem_of_nil in Hk]; injection Hk as Hq _.
  - change ["tmp"] with ([] ++ ["tmp"]) in Hq.
    apply app_inj_tail in Hq as [-> _].
    apply prefix_length in Hpre. simpl in Hpre. lia.
  - change ["tmp"; "a"] with (["tmp"] ++ ["a"]) in Hq.
    apply app_inj_tail in Hq as [-> ->]. done.
Qed.

(** X7. On a directory below which every entry lies in a directory and
    none is hidden, [RemoveRecursive] leaves nothing, neither the directory
    nor anything below it, and every other path keeps what it had. *)
Theorem RemoveRecursive_clears_tidy_tree (path : Path) (d : Disk)
    (extra : nat) :
  tidy (tree d) path → tree d !! path = Some Dir →
  ∃ d',
    RemoveRecursive (S (height (tree d) + extra)) path d = Some d' ∧
    (∀ q, path `prefix_of` q → tree d' !! q = None) ∧
    (∀ q, ¬ path `prefix_of` q → tree d' !! q = tree d !! q).
Proof.
  intros Htidy Hdir.
  destruct (RemoveRecursive_removes_all (S (height (tree d) + extra)) path d
              (height (tree d))) as (d' & Hrun & Hclear & Hpr);
    [apply height_bounded|lia|lia|done|by rewrite Hdir|].
  exists d'. split; [done|]. split; [exact Hclear|].
  intros q Hq. by destruct (Hpr q) as [?|[_ ?]].
Qed.

Lemma RemoveRecursive_clears_tidy_tree_witness :
  ∃ d',
    RemoveRecursive (S (height small_tree + 0)) ["tmp"]
      {| tree := small_tree; journal := [] |} = Some d' ∧
    (∀ q, ["tmp"] `prefix_of` q → tree d' !! q = None) ∧
    (∀ q, ¬ ["tmp"] `prefix_of` q → tree d' !! q = small_tree !! q).
Proof.
  apply (RemoveRecursive_clears_tidy_tree ["tmp"]
           {| tree := small_tree; journal := [] |} 0).
  - exact small_tree_tidy.
  - reflexivity.
Defined.

(** *** The order of the calls *)







(** ** [MakeTempDir] *)

(** X18. [MakeTempDir] creates one empty directory, under the name the
    temporary file had, and [RemoveRecursive] on that name brings the tree
    back to what it was.  When no temporary file could be created,
    [MakeTempDir] returns the empty path and creates nothing. *)
Theorem MakeTempDir_RemoveRecursive (t : gmap Path Kind) (parent : Path)
    (name : string) (log : list Step) (fuel : nat) :
  let p := parent ++ [name] in
  parent = [] ∨ t !! parent = Some Dir →
  t !! p = None →
  (∀ child, t !! (p ++ [child]) = None) →
  MakeTempDir (Some p) t = (p, <[p := Dir]> t) ∧
  (∃ d', RemoveRecursive (S fuel) p
           {| tree := (MakeTempDir (Some p) t).2; journal := log |} = Some d' ∧
         tree d' = t) ∧
  MakeTempDir None t = ([], t).
Proof.
  intros p Hparent Hfresh Hempty.
  assert (Hmk : MakeTempDir (Some p) t = (p, <[p := Dir]> t)).
  { unfold MakeTempDir, QDir_mkdir. rewrite delete_insert_id by done.
    rewrite Hfresh. unfold p. rewrite split_last_snoc.
    by rewrite decide_True. }
  split; [done|]. split.
  - rewrite Hmk. simpl.
    assert (Hnone : ∀ k, entryList (<[p := Dir]> t) p k = []).
    { intros k. apply elem_of_nil_inv. intros child Hin.
      apply elem_of_entryList in Hin as (_ & Hlook & _).
      rewrite lookup_insert_ne, Hempty in Hlook; [done|].
      intros Heq. apply (f_equal length) in Heq.
      rewrite length_app in Heq. simpl in Heq. lia. }
    rewrite Hnone. simpl. rewrite Hnone. simpl.
    eexists. split; [done|]. unfold QDir_rmdir. simpl.
    rewrite lookup_insert_eq.
    rewrite (proj2 (children_nil (<[p := Dir]> t) p)).
    + simpl. by apply delete_insert_id.
    + intros child. rewrite lookup_insert_ne; [done|].
      intros Heq. apply (f_equal length) in Heq.
      rewrite length_app in Heq. simpl in Heq. lia.
  - unfold MakeTempDir, QDir_mkdir. simpl. by destruct (t !! []).
Qed.

Lemma MakeTempDir_RemoveRecursive_witness :
  MakeTempDir (Some ["tmp"; "qt_temp.x"]) small_tree =
    (["tmp"; "qt_temp.x"], <[["tmp"; "qt_temp.x"] := Dir]> small_tree) ∧
  (∃ d', RemoveRecursive 1 ["tmp"; "qt_temp.x"]
           {| tree := (MakeTempDir (Some ["tmp"; "qt_temp.x"]) small_tree).2;
              journal := [] |} = Some d' ∧
         tree d' = small_tree) ∧
  MakeTempDir None small_tree = ([], small_tree).
Proof.
  apply (MakeTempDir_RemoveRecursive small_tree ["tmp"] "qt_temp.x" [] 0).
  - right. reflexivity.
  - reflexivity.
  - intros child. simpl.
    destruct (small_tree !! ["tmp"; "qt_temp.x"; child]) as [k|] eqn:Hk;
      [|reflexivity].
    apply elem_of_map_to_list in Hk.
    let l := eval vm_compute in (map_to_list small_tree) in
    change (map_to_list small_tree) with l in Hk.
    repeat (apply elem_of_cons in Hk as [Hk|Hk]);
      [| |by apply not_elem_of_nil in Hk]; discriminate Hk.
Defined.

(** ** [DoInAMinuteOrSo], continued *)

(** One call: it takes the next random number and starts one timer. *)
Lemma DoInAMinuteOrSo_step (receiver slot : string) (a : App) :
  qrand_in_range a →
  let r := qrand_sequence a (qrand_calls a) in
  DoInAMinuteOrSo receiver slot a =
    {| qrand_sequence := qrand_sequence a;
       qrand_calls := S (qrand_calls a);
       timers := timers a ++
         [{| msec := (60 + r `mod` 60) * 1000;
             receiver := receiver; slot := slot |}] |}.
Proof.
  intros Hrange r. pose proof (Hrange (qrand_calls a)) as Hr. fold r in Hr.
  unfold DoInAMinuteOrSo, qrand, DoAfter. simpl. fold r.
  rewrite Z.rem_mod_nonneg by lia. unfold kMsecPerSec.
  pose proof (Z.mod_pos_bound r 60).
  rewrite to_int_id; [done|]. unfold is_int, INT_MIN, INT_MAX. lia.
Qed.

(** X19. [n] calls of [DoInAMinuteOrSo] in a row start [n] timers, behind
    the timers that were there, in the order of the calls; the call
    number [i] uses the random number number [i], and its delay is a whole
    number of seconds from 60 to 119. *)
Theorem DoInAMinuteOrSo_repeated (receiver slot : string) (a : App) (n : nat) :
  qrand_in_range a →
  let a' := Nat.iter n (DoInAMinuteOrSo receiver slot) a in
  qrand_calls a' = (qrand_calls a + n)%nat ∧
  timers a' =
    timers a ++
    ((λ i, {| msec := (60 + qrand_sequence a (qrand_calls a + i)%nat `mod` 60)
                      * 1000;
              receiver := receiver; slot := slot |}) <$> seq 0 n) ∧
  Forall (λ t, 60000 <= msec t <= 119000) (drop (length (timers a)) (timers a')).
Proof.
  intros Hrange.
  assert (Hiter : ∀ n,
    let a' := Nat.iter n (DoInAMinuteOrSo receiver slot) a in
    qrand_sequence a' = qrand_sequence a ∧
    qrand_calls a' = (qrand_calls a + n)%nat ∧
    timers a' =
      timers a ++
      ((λ i, {| msec := (60 + qrand_sequence a (qrand_calls a + i)%nat `mod` 60)
                        * 1000;
                receiver := receiver; slot := slot |}) <$> seq 0 n)).
  { clear n. induction n as [|n (Hseq & Hcalls & Htimers)].
    - simpl. split_and!; [done|lia|by rewrite app_nil_r].
    - cbv zeta. rewrite seq_S, fmap_app, Nat.iter_succ, DoInAMinuteOrSo_step.
      2:{ intros i. rewrite Hseq. apply Hrange. }
      simpl. rewrite Hseq, Hcalls, Htimers. split_and!; [done|lia|].
      by rewrite <- (assoc_L (++)). }
  intros a'. destruct (Hiter n) as (_ & Hcalls & Htimers). fold a' in Hcalls, Htimers.
  split; [done|]. split; [done|].
  rewrite Htimers, drop_app_length. apply Forall_fmap, Forall_forall.
  intros i _. simpl.
  pose proof (Z.mod_pos_bound (qrand_sequence a (qrand_calls a + i)%nat) 60).
  lia.
Qed.

Lemma DoInAMinuteOrSo_repeated_witness :
  qrand_calls (Nat.iter 2 (DoInAMinuteOrSo "player" "1Reload()") app_example)
    = 2%nat ∧
  msec <$> timers (Nat.iter 2 (DoInAMinuteOrSo "player" "1Reload()") app_example)
    = [105000; 90000].
Proof.
  assert (H : qrand_in_range app_example).
  { intros i. unfold app_example, INT_MAX, qrand_sequence.
    pose proof (Z.mod_pos_bound (1103515245 * Z.of_nat i + 12345) (2 ^ 31)).
    lia. }
  destruct (DoInAMinuteOrSo_repeated "player" "1Reload()" app_example 2 H)
    as (Hcalls & Htimers & _).
  split; [exact Hcalls|]. rewrite Htimers. reflexivity.
Defined.

(** ** The volume queries, continued *)

(** X20. On Unix, when the query succeeds with fields that are unsigned
    64-bit numbers and the volume's size in bytes fits 64 bits, the
    capacity is the number of blocks times the block size, the free space
    is the number of available blocks times the block size, and the free
    space is at most the capacity. *)
Theorem FileSystem_free_within_capacity (os : OS) (path : string)
    (info : statvfs_t) :
  platform os = Q_OS_UNIX →
  statvfs os path = Some info →
  0 <= f_bavail info <= f_blocks info →
  f_blocks info < 2 ^ 64 →
  0 <= f_bsize info < 2 ^ 64 →
  f_blocks info * f_bsize info < 2 ^ 64 →
  FileSystemCapacity os path = f_blocks info * f_bsize info ∧
  FileSystemFreeSpace os path = f_bavail info * f_bsize info ∧
  0 <= FileSystemFreeSpace os path <= FileSystemCapacity os path.
Proof.
  intros Hos Hinfo Havail Hblocks Hsize Hfit.
  unfold FileSystemCapacity, FileSystemFreeSpace. rewrite Hos, Hinfo.
  assert (Hfree : f_bavail info * f_bsize info <= f_blocks info * f_bsize info)
    by nia.
  assert (0 <= f_bavail info * f_bsize info) by nia.
  rewrite (to_quint64_id (f_bsize info)), (to_quint64_id (f_blocks info)),
    (to_quint64_id (f_bavail info)) by lia.
  rewrite !to_quint64_id by lia. lia.
Qed.

Lemma FileSystem_free_within_capacity_witness :
  FileSystemCapacity unix_example "/" = 1000 * 4096 ∧
  FileSystemFreeSpace unix_example "/" = 250 * 4096 ∧
  0 <= FileSystemFreeSpace unix_example "/"
    <= FileSystemCapacity unix_example "/".
Proof.
  apply (FileSystem_free_within_capacity unix_example "/"
           {| f_bsize := 4096; f_blocks := 1000; f_bavail := 250 |});
    simpl; (reflexivity || lia).
Defined.
